(** * Tic-tac-toe with a minimax opponent: outcome evaluator and search engine

    Shallow embedding of [tittac.py].  Cells are Python strings ([""] is the
    empty cell), a board is a Python list of cells, the search is the
    [lru_cache]-decorated [minimax_cached] and its entry point [ai_move].

    Integers are [Z].  A function that can raise returns a [res]; a function
    that reads or writes the cache takes the cache and returns the new one.
    The recursion of the search is bounded by a depth [fuel], as the
    interpreter bounds it: a call with no depth left raises
    [RecursionError].  The theorems give the depth that suffices. *)

From Stdlib Require Import ZArith String.
From stdpp Require Import base numbers list sorting strings pretty gmap.

Local Open Scope string_scope.
Local Open Scope list_scope.
Local Open Scope Z_scope.

(** ** Results of fallible Python code *)

(** The two exceptions the modelled functions can raise. *)
Inductive error : Type :=
  | IndexError      (* [board[i]] with [i] out of range *)
  | RecursionError. (* the interpreter's recursion depth is exhausted *)

Inductive res (A : Type) : Type :=
  | Ok (a : A)
  | Raise (e : error).
Arguments Ok {A} a.
Arguments Raise {A} e.

Definition res_bind {A B : Type} (m : res A) (f : A → res B) : res B :=
  match m with
  | Ok a => f a
  | Raise e => Raise e
  end.

Notation "'do' x <- m ; k" := (res_bind m (fun x => k))
  (at level 10, x name, m at level 100, k at level 200).

(** ** Board and outcome evaluator *)

(** [l[i]] for a non-negative index. *)
Definition getitem {A : Type} (l : list A) (i : nat) : res A :=
  match l !! i with
  | Some c => Ok c
  | None => Raise IndexError
  end.

Definition WINNING_LINES : list (nat * nat * nat) :=
  [ (0, 1, 2); (3, 4, 5); (6, 7, 8);
    (0, 3, 6); (1, 4, 7); (2, 5, 8);
    (0, 4, 8); (2, 4, 6) ]%nat.

(** The test of one line, [board[a] != '' and board[a] == board[b] == board[c]],
    evaluated left to right with Python's short-circuiting; on success the
    value returned by the enclosing [return board[a]] is produced. *)
Definition line_winner (b : list string) (l : nat * nat * nat) : res (option string) :=
  let '(i, j, k) := l in
  do x <- getitem b i;
  if String.eqb x "" then Ok None else
  do y <- getitem b j;
  if negb (String.eqb x y) then Ok None else
  do z <- getitem b k;
  if String.eqb y z then Ok (Some x) else Ok None.

Fixpoint first_line (b : list string) (ls : list (nat * nat * nat)) : res (option string) :=
  match ls with
  | [] => Ok None
  | l :: ls' =>
      do w <- line_winner b l;
      match w with
      | Some x => Ok (Some x)
      | None => first_line b ls'
      end
  end.

(** [x in board] for a list of strings. *)
Definition contains (b : list string) (x : string) : bool :=
  existsb (String.eqb x) b.

(** [check_winner]: [Some mark], [Some "Draw"] or [None] (Python's [None]). *)
Definition check_winner (b : list string) : res (option string) :=
  do w <- first_line b WINNING_LINES;
  match w with
  | Some x => Ok (Some x)
  | None => if negb (contains b "") then Ok (Some "Draw") else Ok None
  end.

(** [[i for i, v in enumerate(board) if v == '']], counting from [i]. *)
Fixpoint available_from (i : nat) (b : list string) : list nat :=
  match b with
  | [] => []
  | v :: b' =>
      if String.eqb v "" then i :: available_from (S i) b'
      else available_from (S i) b'
  end.

Definition available_moves (b : list string) : list nat := available_from 0 b.

(** ** The search engine *)

(** [result == mark] where [result] may be [None]. *)
Definition result_is (r : option string) (mark : string) : bool :=
  match r with
  | Some x => String.eqb x mark
  | None => false
  end.

(** The body of [minimax_cached].  Inside the body the name
    [minimax_cached] denotes whatever the module binds it to (the decorated
    function), so the body is written over [rec], and over the state [St]
    that a call of [rec] may read and change. *)
Section Body.
Context {St : Type}.
Context (rec : list string → string → string → bool → Z → Z → St →
               res (Z * option nat) * St).

(** [for m in available_moves(board)] of the maximizing branch.  The loop
    state is [value], [best_move], [alpha] and the local list [board];
    the result carries the local list as the loop leaves it. *)
Fixpoint max_loop (ai_player human_player : string) (b : list string)
    (moves : list nat) (value : Z) (best_move : option nat) (alpha beta : Z)
    (s : St) : res (Z * option nat * list string) * St :=
  match moves with
  | [] => (Ok (value, best_move, b), s)
  | m :: moves' =>
      let b1 := <[m := ai_player]> b in
      match rec b1 ai_player human_player false alpha beta s with
      | (Raise e, s1) => (Raise e, s1)
      | (Ok (score, _), s1) =>
          let b2 := <[m := ""]> b1 in
          let '(value, best_move) :=
            if score >? value then (score, Some m) else (value, best_move) in
          let alpha := Z.max alpha value in
          if alpha >=? beta then (Ok (value, best_move, b2), s1)
          else max_loop ai_player human_player b2 moves' value best_move alpha beta s1
      end
  end.

(** The loop of the minimizing branch. *)
Fixpoint min_loop (ai_player human_player : string) (b : list string)
    (moves : list nat) (value : Z) (best_move : option nat) (alpha beta : Z)
    (s : St) : res (Z * option nat * list string) * St :=
  match moves with
  | [] => (Ok (value, best_move, b), s)
  | m :: moves' =>
      let b1 := <[m := human_player]> b in
      match rec b1 ai_player human_player true alpha beta s with
      | (Raise e, s1) => (Raise e, s1)
      | (Ok (score, _), s1) =>
          let b2 := <[m := ""]> b1 in
          let '(value, best_move) :=
            if score <? value then (score, Some m) else (value, best_move) in
          let beta := Z.min beta value in
          if alpha >=? beta then (Ok (value, best_move, b2), s1)
          else min_loop ai_player human_player b2 moves' value best_move alpha beta s1
      end
  end.

Definition minimax_body (board_key : list string)
    (ai_player human_player : string) (maximizing : bool) (alpha beta : Z)
    (s : St) : res (Z * option nat) * St :=
  let b := board_key in
  match check_winner b with
  | Raise e => (Raise e, s)
  | Ok result =>
      if result_is result ai_player then (Ok (1, None), s)
      else if result_is result human_player then (Ok (-1, None), s)
      else if result_is result "Draw" then (Ok (0, None), s)
      else if maximizing then
        match max_loop ai_player human_player b (available_moves b)
                       (-999) None alpha beta s with
        | (Ok (value, best_move, _), s') => (Ok (value, best_move), s')
        | (Raise e, s') => (Raise e, s')
        end
      else
        match min_loop ai_player human_player b (available_moves b)
                       999 None alpha beta s with
        | (Ok (value, best_move, _), s') => (Ok (value, best_move), s')
        | (Raise e, s') => (Raise e, s')
        end
  end.
End Body.

(** The undecorated function: the body with every recursive call made
    directly, on no state at all.  [fuel] is the recursion depth still
    available. *)
Definition stateless (g : list string → string → string → bool → Z → Z →
                          res (Z * option nat))
    : list string → string → string → bool → Z → Z → unit →
      res (Z * option nat) * unit :=
  fun b ai hu mx alpha beta u => (g b ai hu mx alpha beta, u).

Fixpoint minimax (fuel : nat) (board_key : list string)
    (ai_player human_player : string) (maximizing : bool) (alpha beta : Z)
    : res (Z * option nat) :=
  match fuel with
  | O => Raise RecursionError
  | S fuel' =>
      (minimax_body (stateless (minimax fuel')) board_key ai_player
                    human_player maximizing alpha beta tt).1
  end.

(** [@lru_cache(maxsize=None)]: the cache maps the tuple of all six
    arguments to the value returned. *)
Abbreviation key := (list string * string * string * bool * Z * Z)%type.
Abbreviation cache := (gmap key (Z * option nat)).

(** The decorated function.  A hit returns the stored value; a miss runs
    the body, whose recursive calls go through the decorator again, and
    stores the value the body returns.  A call that raises stores nothing. *)
Fixpoint minimax_cached (fuel : nat) (board_key : list string)
    (ai_player human_player : string) (maximizing : bool) (alpha beta : Z)
    (c : cache) : res (Z * option nat) * cache :=
  let k := (board_key, ai_player, human_player, maximizing, alpha, beta) in
  match c !! k with
  | Some r => (Ok r, c)
  | None =>
      match fuel with
      | O => (Raise RecursionError, c)
      | S fuel' =>
          match minimax_body (minimax_cached fuel') board_key ai_player
                             human_player maximizing alpha beta c with
          | (Ok r, c') => (Ok r, <[k := r]> c')
          | (Raise e, c') => (Raise e, c')
          end
      end
  end.

(** The objects a call of [ai_move] can reach: the caller's list [board]
    and the cache of [minimax_cached]. *)
Record world : Type := World { board_obj : list string; lru : cache }.

(** [ai_move(board, ai_player, human_player)]; [board] is the caller's
    list, of which [tuple(board)] takes a snapshot. *)
Definition ai_move (fuel : nat) (ai_player human_player : string) (w : world)
    : res (option nat) * world :=
  match minimax_cached fuel (board_obj w) ai_player human_player true
                       (-999) 999 (lru w) with
  | (Ok (score, move), c') => (Ok move, World (board_obj w) c')
  | (Raise e, c') => (Raise e, World (board_obj w) c')
  end.

(** [minimax_cached.cache_clear()]. *)
Definition cache_clear (w : world) : world := World (board_obj w) ∅.

(** The game loop of [play] with both players' moves supplied by [ai_move],
    each call made with the mover's mark as [ai_player] and the other mark as
    [human_player].  [rounds] bounds the iterations of [while True]; the
    result is the value of [check_winner] that ends the loop ([None] when
    the rounds run out first). *)
Fixpoint self_play (rounds fuel : nat) (mover other : string) (w : world)
    : res (option string) * world :=
  match check_winner (board_obj w) with
  | Raise e => (Raise e, w)
  | Ok (Some result) => (Ok (Some result), w)
  | Ok None =>
      match rounds with
      | O => (Ok None, w)
      | S rounds' =>
          match ai_move fuel mover other w with
          | (Raise e, w1) => (Raise e, w1)
          | (Ok move, w1) =>
              let m := match move with
                       | Some m => Ok m
                       | None => getitem (available_moves (board_obj w1)) 0%nat
                       end in
              match m with
              | Raise e => (Raise e, w1)
              | Ok m =>
                  self_play rounds' fuel other mover
                            (World (<[m := mover]> (board_obj w1)) (lru w1))
              end
          end
      end
  end.

(** ** Auxiliary notions used in the statements *)

Definition empty_board : list string := replicate 9 "".

(** Number of empty cells. *)
Definition count_empty (b : list string) : nat := length (available_moves b).

(** Every entry of the cache is a value the undecorated function returns
    for the entry's key. *)
Definition cache_ok (c : cache) : Prop :=
  ∀ b ai hu mx alpha beta r,
    c !! (b, ai, hu, mx, alpha, beta) = Some r →
    ∃ fuel, minimax fuel b ai hu mx alpha beta = Ok r.

(** Line [l] holds the non-empty mark [x] in all three cells. *)
Definition line_full (b : list string) (l : nat * nat * nat) (x : string) : Prop :=
  b !! l.1.1 = Some x ∧ b !! l.1.2 = Some x ∧ b !! l.2 = Some x ∧ x ≠ "".

(** All three positions of a line are valid indices of a list of length [n]. *)
Definition line_in_range (n : nat) (l : nat * nat * nat) : Prop :=
  (l.1.1 < n ∧ l.1.2 < n ∧ l.2 < n)%nat.

(** No line of [ls] is full on [b]. *)
Definition none_full (b : list string) (ls : list (nat * nat * nat)) : Prop :=
  ∀ l y, l ∈ ls → ¬ line_full b l y.

(** [l], holding [x], is the first full line of [ls] on [b]. *)
Definition first_full (b : list string) (ls : list (nat * nat * nat))
    (l : nat * nat * nat) (x : string) : Prop :=
  ∃ l1 l2, ls = l1 ++ l :: l2 ∧ line_full b l x ∧ none_full b l1.

(** The outcome of [b] is one the search treats as such: in progress, won by
    one of the two marks, or drawn. *)
Definition outcome_known (b : list string) (ai hu : string) : Prop :=
  check_winner b = Ok None ∨ check_winner b = Ok (Some ai)
  ∨ check_winner b = Ok (Some hu) ∨ check_winner b = Ok (Some "Draw").

Definition node_ok (b : list string) (ai hu : string) : Prop :=
  length b = 9%nat ∧ ai ≠ "" ∧ hu ≠ "" ∧ outcome_known b ai hu.

(** Every cell is empty or holds one of the two marks. *)
Definition over_marks (b : list string) (ai hu : string) : Prop :=
  Forall (λ c, c = "" ∨ c = ai ∨ c = hu) b.

(** ** Notions used in the proofs and in the examples *)

Section Explored.
Context {St : Type}.
Context (rec : list string → string → string → bool → Z → Z → St →
               res (Z * option nat) * St).


End Explored.



Definition res_map {A B : Type} (f : A → B) (m : res A) : res B :=
  match m with
  | Ok a => Ok (f a)
  | Raise e => Raise e
  end.

(** Replace the mark [a] by [a'] and the mark [h] by [h']. *)
Definition rename (a h a' h' : string) (c : string) : string :=
  if String.eqb c a then a' else if String.eqb c h then h' else c.

(** Two distinct strings, neither the empty cell nor the word for a draw. *)
Definition marks (a h : string) : Prop :=
  a ≠ "" ∧ h ≠ "" ∧ a ≠ h ∧ a ≠ "Draw" ∧ h ≠ "Draw".

(** The strings that can occur in a cell or as an outcome when the marks
    are [a] and [h]. *)
Definition known (a h : string) (c : string) : Prop :=
  c = "" ∨ c = a ∨ c = h ∨ c = "Draw".

(** [self_play] with the undecorated search and no state: the outcome and
    the final board. *)
Fixpoint self_play_stateless (rounds fuel : nat) (mover other : string)
    (b : list string) : res (option string * list string) :=
  match check_winner b with
  | Raise e => Raise e
  | Ok (Some result) => Ok (Some result, b)
  | Ok None =>
      match rounds with
      | O => Ok (None, b)
      | S rounds' =>
          match minimax fuel b mover other true (-999) 999 with
          | Raise e => Raise e
          | Ok (_, move) =>
              let m := match move with
                       | Some m => Ok m
                       | None => getitem (available_moves b) 0%nat
                       end in
              match m with
              | Raise e => Raise e
              | Ok m =>
                  self_play_stateless rounds' fuel other mover (<[m := mover]> b)
              end
          end
      end
  end.

(** A board on which the window decides the value returned, and the cache
    left by the call on it with the full window. *)
Definition window_board : list string :=
  ["X"; "O"; "X"; "O"; "O"; "X"; ""; ""; ""].

Definition window_cache : cache :=
  (minimax_cached 4 window_board "X" "O" true (-999) 999 ∅).2.

(** The boards of the two examples, and boards on which the search prefers
    another move than the one completing or blocking a line. *)
Definition win_board (a h : string) : list string :=
  [a; a; ""; h; h; ""; ""; ""; ""].

Definition threat_board (a h : string) : list string :=
  [""; a; ""; h; h; ""; ""; ""; ""].

Definition fork_board : list string :=
  [""; "O"; ""; ""; ""; "O"; "X"; "X"; ""].

(** ** The value of a position without pruning and without a cache *)

(** The value of [b] for the AI by plain minimax over the same leaves and
    the same sentinels as [minimax_cached]: 1, -1 or 0 at a finished game,
    otherwise the largest value of a child when the AI moves and the
    smallest when the opponent moves.  It is used with nine cells and a
    depth above the number of empty cells; with no depth left, or on a list
    that [check_winner] cannot index, it is 0. *)
Fixpoint plain_minimax (fuel : nat) (b : list string) (ai hu : string)
    (mx : bool) : Z :=
  match fuel with
  | O => 0
  | S fuel' =>
      match check_winner b with
      | Raise _ => 0
      | Ok result =>
          if result_is result ai then 1
          else if result_is result hu then -1
          else if result_is result "Draw" then 0
          else if mx then
            foldr (λ m acc,
                     Z.max (plain_minimax fuel' (<[m := ai]> b) ai hu false) acc)
                  (-999) (available_moves b)
          else
            foldr (λ m acc,
                     Z.min (plain_minimax fuel' (<[m := hu]> b) ai hu true) acc)
                  999 (available_moves b)
      end
  end.

(** ** Console: rendering, the human's move and the game loop *)

(** What the program writes to standard output: [print(s)] writes [s] and a
    newline, [input(prompt)] writes [prompt]. *)
Inductive out : Type :=
  | Print (s : string)
  | Prompt (s : string).

(** What one line read by [human_move] amounts to, in the order the code
    tests it: a line that, stripped and lowered, is [q], [quit] or [exit];
    otherwise a line for which [int(choice)] returns [z]; otherwise a line
    for which [int(choice)] raises [ValueError]. *)
Inductive line : Type :=
  | Quit
  | Number (z : Z)
  | NotNumber.

(** How a run of console code can end other than by returning. *)
Inductive halt : Type :=
  | SystemExit                (* [exit(0)] *)
  | EOFError                  (* [input] at the end of standard input *)
  | Raised (e : error)        (* an exception of the core *)
  | OutOfRounds.              (* the bound on loop iterations of the model *)

Inductive ended (A : Type) : Type :=
  | Returned (a : A)
  | Halted (h : halt).
Arguments Returned {A} a.
Arguments Halted {A} h.

(** One row of the grid, [f" {chars[i]} | {chars[j]} | {chars[k]} "]. *)
Definition display_row (chars : list string) (i j k : nat) : res string :=
  do x <- getitem chars i;
  do y <- getitem chars j;
  do z <- getitem chars k;
  Ok (" " +:+ x +:+ " | " +:+ y +:+ " | " +:+ z +:+ " ").

(** [display(board)]: the lines printed, and the exception that cut the
    printing short, if any. *)
Definition display (b : list string) : list out * res unit :=
  let chars := (λ c, if negb (String.eqb c "") then c else " ") <$> b in
  match display_row chars 0 1 2 with
  | Raise e => ([Print ""], Raise e)
  | Ok r1 =>
      match display_row chars 3 4 5 with
      | Raise e => ([Print ""; Print r1; Print "---+---+---"], Raise e)
      | Ok r2 =>
          match display_row chars 6 7 8 with
          | Raise e =>
              ([Print ""; Print r1; Print "---+---+---"; Print r2;
                Print "---+---+---"], Raise e)
          | Ok r3 =>
              ([Print ""; Print r1; Print "---+---+---"; Print r2;
                Print "---+---+---"; Print r3; Print ""], Ok tt)
          end
      end
  end.

Definition newline : string := String (Ascii.ascii_of_nat 10) "".

Definition move_prompt : string :=
  "Enter your move (1-9), positions:" +:+ newline +:+
  "1 2 3" +:+ newline +:+ "4 5 6" +:+ newline +:+ "7 8 9" +:+ newline +:+ "> ".

(** [pos in moves] for an integer [pos] and a list of positions. *)
Definition position_in (pos : Z) (moves : list nat) : bool :=
  existsb (λ m, Z.of_nat m =? pos) moves.

(** The loop of [human_move] over the lines still to be read, for the
    value of [moves] computed at entry. *)
Fixpoint read_move (moves : list nat) (stdin : list line)
    : list out * ended nat * list line :=
  match stdin with
  | [] => ([Prompt move_prompt], Halted EOFError, [])
  | Quit :: stdin' =>
      ([Prompt move_prompt; Print "Goodbye."], Halted SystemExit, stdin')
  | Number z :: stdin' =>
      let pos := z - 1 in
      if negb (position_in pos moves) then
        let '(o, r, rest) := read_move moves stdin' in
        (Prompt move_prompt ::
         Print "Invalid move or already taken. Try again." :: o, r, rest)
      else ([Prompt move_prompt], Returned (Z.to_nat pos), stdin')
  | NotNumber :: stdin' =>
      let '(o, r, rest) := read_move moves stdin' in
      (Prompt move_prompt :: Print "Please enter a number 1-9." :: o, r, rest)
  end.

Definition human_move (b : list string) (stdin : list line)
    : list out * ended nat * list line :=
  read_move (available_moves b) stdin.








(** A line that [human_move] does not accept on a board with the empty
    positions [moves]. *)
Definition rejected (moves : list nat) (l : line) : Prop :=
  l = NotNumber ∨ ∃ z, l = Number z ∧ ¬ (1 <= z ∧ Z.to_nat (z - 1) ∈ moves).

(** The value of [b] with the depth that its empty cells call for. *)
Definition position_value (b : list string) (ai hu : string) (mx : bool) : Z :=
  plain_minimax (S (count_empty b)) b ai hu mx.

(** The bounds that the value [v] returned under a window [alpha < beta]
    gives on the plain value [t]: a value at or below [alpha] is an upper
    bound, a value at or above [beta] a lower bound, a value inside the
    window is exact. *)
Definition window_bounds (alpha beta v t : Z) : Prop :=
  (v <= alpha → t <= v) ∧ (beta <= v → v <= t) ∧ (alpha < v < beta → t = v).

(** [b'] has the cells of [b], every mark of [b] still in its place. *)
Definition extends (b b' : list string) : Prop :=
  length b' = length b ∧ ∀ i x, b !! i = Some x → x ≠ "" → b' !! i = Some x.



(** A cell as the game has them: empty, or one character other than a
    space. *)
Definition plain_cell (c : string) : Prop :=
  c = "" ∨ (String.length c = 1%nat ∧ c ≠ " ").

(** A board on which the mark O cannot complete a line, the mark X
    completes the middle row by playing 3, and blocking there holds the
    draw. *)
Definition block_board : list string :=
  ["O"; ""; ""; ""; "X"; "X"; ""; ""; ""].

(** * Properties *)

(** ** The outcome evaluator *)

Lemma getitem_Ok {A} (l : list A) i x : getitem l i = Ok x ↔ l !! i = Some x.
Proof. unfold getitem. destruct (l !! i); naive_solver. Qed.

Lemma getitem_lt {A} (l : list A) i :
  (i < length l)%nat → ∃ x, getitem l i = Ok x ∧ l !! i = Some x.
Proof.
  intros Hi. destruct (lookup_lt_is_Some_2 l i Hi) as [x Hx].
  exists x. by rewrite getitem_Ok.
Qed.

Lemma eqb_false_iff (x y : string) : String.eqb x y = false ↔ x ≠ y.
Proof. destruct (String.eqb_spec x y); naive_solver. Qed.

Lemma WINNING_LINES_in_range : Forall (line_in_range 9) WINNING_LINES.
Proof. unfold WINNING_LINES, line_in_range. repeat constructor; simpl; lia. Qed.


(** What the test of one line computes. *)
Lemma line_winner_spec b l :
  line_in_range (length b) l →
  match line_winner b l with
  | Ok (Some x) => line_full b l x
  | Ok None => ∀ x, ¬ line_full b l x
  | Raise _ => False
  end.
Proof.
  destruct l as [[i j] k]. intros (Hi & Hj & Hk). simpl in *.
  destruct (getitem_lt b i Hi) as (x & Ex & Lx).
  destruct (getitem_lt b j Hj) as (y & Ey & Ly).
  destruct (getitem_lt b k Hk) as (z & Ez & Lz).
  unfold line_winner, line_full. rewrite Ex. simpl.
  destruct (String.eqb_spec x "") as [->|Hx].
  { intros x' (H1 & _ & _ & H4). simpl in *. congruence. }
  rewrite Ey. simpl.
  destruct (String.eqb_spec x y) as [<-|Hxy]; simpl.
  2:{ intros x' (H1 & H2 & _). simpl in *. congruence. }
  rewrite Ez. simpl.
  destruct (String.eqb_spec x z) as [<-|Hxz]; simpl.
  - done.
  - intros x' (H1 & _ & H3 & _). simpl in *. congruence.
Qed.

(** What the scan of a list of lines computes: the mark of the first full
    line, if there is one. *)
Lemma first_line_spec b ls :
  Forall (line_in_range (length b)) ls →
  match first_line b ls with
  | Ok (Some x) =>
      ∃ l1 l l2, ls = l1 ++ l :: l2 ∧ line_full b l x ∧
                 ∀ l' y, l' ∈ l1 → ¬ line_full b l' y
  | Ok None => ∀ l y, l ∈ ls → ¬ line_full b l y
  | Raise _ => False
  end.
Proof.
  induction ls as [|l ls IH]; intros Hr; simpl.
  - intros l y Hl. by apply elem_of_nil in Hl.
  - apply Forall_cons in Hr as [Hl Hls].
    pose proof (line_winner_spec b l Hl) as Hw.
    destruct (line_winner b l) as [[x|]|e]; simpl; [|..|done].
    + exists [], l, ls. split_and!; [done..|].
      intros l' y Hl'. by apply elem_of_nil in Hl'.
    + specialize (IH Hls).
      destruct (first_line b ls) as [[x|]|e]; [|..|done].
      * destruct IH as (l1 & l0 & l2 & -> & Hfull & Hnone).
        exists (l :: l1), l0, l2. split_and!; [done..|].
        intros l' y [->|Hl']%elem_of_cons; eauto.
      * intros l' y [->|Hl']%elem_of_cons; eauto.
Qed.

Lemma contains_spec b x : contains b x = true ↔ x ∈ b.
Proof.
  unfold contains. rewrite existsb_exists. split.
  - intros (y & Hy & ->%String.eqb_eq). by apply list_elem_of_In.
  - intros Hx. exists x. split; [by apply list_elem_of_In|apply String.eqb_refl].
Qed.

Lemma first_full_elem b ls l x : first_full b ls l x → l ∈ ls ∧ line_full b l x.
Proof. intros (l1 & l2 & -> & Hx & _). split; [set_solver|done]. Qed.


Lemma first_full_not_none b ls l x : first_full b ls l x → ¬ none_full b ls.
Proof. intros [Hl Hx]%first_full_elem Hno. by apply (Hno l x). Qed.

(** [check_winner] on a board of nine cells: it never raises, and returns
    either the mark of the first full line or, when no line is full,
    ["Draw"] or [None] according to whether an empty cell is left. *)
Lemma check_winner_spec b :
  length b = 9%nat →
  ∃ r, check_winner b = Ok r ∧
       ((∃ l x, first_full b WINNING_LINES l x ∧ r = Some x)
        ∨ (none_full b WINNING_LINES ∧
           r = if decide ("" ∈ b) then None else Some "Draw")).
Proof.
  intros Hlen. unfold check_winner.
  pose proof (first_line_spec b WINNING_LINES) as Hf.
  rewrite Hlen in Hf. specialize (Hf WINNING_LINES_in_range).
  destruct (first_line b WINNING_LINES) as [[x|]|e]; simpl; [| |done].
  - destruct Hf as (k1 & k & k2 & Hk & Hfull & Hnone).
    exists (Some x). split; [done|]. left. exists k, x. split; [|done].
    by exists k1, k2.
  - destruct (contains b "") eqn:Hc; simpl; eexists; (split; [done|right]);
      (split; [done|]).
    + apply contains_spec in Hc. by rewrite decide_True.
    + rewrite decide_False; [done|]. intros Hc'%contains_spec. congruence.
Qed.

(** ** Empty cells and hypothetical placements *)

Lemma elem_of_available_from i b m :
  m ∈ available_from i b ↔ ∃ j, m = (i + j)%nat ∧ b !! j = Some "".
Proof.
  revert i. induction b as [|v b IH]; intros i; simpl.
  - split; [by intros ?%elem_of_nil|]. by intros (j & _ & ?).
  - assert (m ∈ available_from (S i) b ↔
            ∃ j, m = (i + S j)%nat ∧ (v :: b) !! S j = Some "") as Htail.
    { rewrite IH. split; intros (j & -> & Hj); exists j; split; (done || lia). }
    destruct (String.eqb_spec v "") as [->|Hv].
    + rewrite elem_of_cons, Htail. split.
      * intros [->|(j & -> & Hj)]; [exists 0%nat|exists (S j)]; split; (done || lia).
      * intros ([|j] & -> & Hj); [left; lia|right; eauto].
    + rewrite Htail. split.
      * intros (j & -> & Hj). by exists (S j).
      * intros ([|j] & -> & Hj); [simpl in Hj; congruence|eauto].
Qed.

Lemma elem_of_available_moves b m : m ∈ available_moves b ↔ b !! m = Some "".
Proof.
  unfold available_moves. rewrite elem_of_available_from. split.
  - by intros (j & -> & Hj).
  - intros Hm. by exists m.
Qed.

Lemma available_moves_empty b :
  Forall (λ m, b !! m = Some "") (available_moves b).
Proof. apply Forall_forall. intros m. by rewrite elem_of_available_moves. Qed.

Lemma count_empty_insert b m x :
  b !! m = Some "" → x ≠ "" →
  S (count_empty (<[m := x]> b)) = count_empty b.
Proof.
  unfold count_empty, available_moves. generalize 0%nat as i.
  revert m. induction b as [|v b IH]; intros m i Hm Hx; [done|].
  destruct m as [|m]; simpl in *.
  - injection Hm as ->. simpl. apply eqb_false_iff in Hx. by rewrite Hx.
  - destruct (String.eqb v ""); simpl; rewrite <- (IH m (S i)); auto.
Qed.

Lemma count_empty_le b : (count_empty b ≤ length b)%nat.
Proof.
  unfold count_empty, available_moves. generalize 0%nat as i.
  induction b as [|v b IH]; intros i; simpl; [done|].
  destruct (String.eqb v ""); simpl; specialize (IH (S i)); lia.
Qed.

Lemma count_empty_pos b : "" ∈ b → (0 < count_empty b)%nat.
Proof.
  intros (m & Hm)%list_elem_of_lookup. apply elem_of_available_moves in Hm.
  unfold count_empty. destruct (available_moves b); [by apply elem_of_nil in Hm|].
  simpl. lia.
Qed.

(** Placing a mark on an empty cell and emptying the cell again restores
    the list. *)
Lemma insert_undo (b : list string) m x :
  b !! m = Some "" → <[m := ""]> (<[m := x]> b) = b.
Proof. intros Hm. rewrite list_insert_insert_eq. by apply list_insert_id. Qed.

(** ** Reasoning rules for the two loops *)

Section LoopRules.
Context {St : Type}.
Context (rec : list string → string → string → bool → Z → Z → St →
               res (Z * option nat) * St).
Context (ai hu : string) (b : list string) (beta0 alpha0 : Z).

(** Total-correctness rule of the maximizing loop: an invariant [I] on the
    moves still to try and the loop state, established at entry and kept
    by every iteration, holds when the loop ends, and the loop ends either
    out of moves or on [alpha >= beta]. *)
Lemma max_loop_rule (I : list nat → Z → option nat → Z → St → Prop) :
  (∀ m rest v bm alpha s,
     I (m :: rest) v bm alpha s →
     ∃ score mv s1,
       rec (<[m := ai]> b) ai hu false alpha beta0 s = (Ok (score, mv), s1) ∧
       let vb := if score >? v then (score, Some m) else (v, bm) in
       I rest vb.1 vb.2 (Z.max alpha vb.1) s1) →
  ∀ moves v bm alpha s,
    Forall (λ m, b !! m = Some "") moves →
    I moves v bm alpha s →
    ∃ v' bm' s' rest alpha',
      max_loop rec ai hu b moves v bm alpha beta0 s = (Ok (v', bm', b), s') ∧
      I rest v' bm' alpha' s' ∧ (rest = [] ∨ alpha' >= beta0) ∧
      (moves = [] ∧ rest = [] ∨ length rest < length moves)%nat.
Proof.
  intros Hstep moves. induction moves as [|m moves IH];
    intros v bm alpha s Hempty HI; simpl.
  - exists v, bm, s, [], alpha. split_and!; auto.
  - apply Forall_cons in Hempty as [Hm Hempty].
    destruct (Hstep _ _ _ _ _ _ HI) as (score & mv & s1 & -> & HI').
    rewrite (insert_undo b m ai Hm).
    destruct (score >? v); simpl in HI'.
    + destruct (Z.max alpha score >=? beta0) eqn:Hbrk.
      * exists score, (Some m), s1, moves, (Z.max alpha score).
        split_and!; [done..|right; lia|right; lia].
      * destruct (IH _ _ _ _ Hempty HI')
          as (v' & bm' & s' & rest & alpha' & ? & ? & ? & Hlen).
        exists v', bm', s', rest, alpha'. split_and!; [done..|].
        right. destruct Hlen as [[-> ->]|Hlen]; simpl; lia.
    + destruct (Z.max alpha v >=? beta0) eqn:Hbrk.
      * exists v, bm, s1, moves, (Z.max alpha v).
        split_and!; [done..|right; lia|right; lia].
      * destruct (IH _ _ _ _ Hempty HI')
          as (v' & bm' & s' & rest & alpha' & ? & ? & ? & Hlen).
        exists v', bm', s', rest, alpha'. split_and!; [done..|].
        right. destruct Hlen as [[-> ->]|Hlen]; simpl; lia.
Qed.

(** The same rule for the minimizing loop. *)
Lemma min_loop_rule (I : list nat → Z → option nat → Z → St → Prop) :
  (∀ m rest v bm beta s,
     I (m :: rest) v bm beta s →
     ∃ score mv s1,
       rec (<[m := hu]> b) ai hu true alpha0 beta s = (Ok (score, mv), s1) ∧
       let vb := if score <? v then (score, Some m) else (v, bm) in
       I rest vb.1 vb.2 (Z.min beta vb.1) s1) →
  ∀ moves v bm beta s,
    Forall (λ m, b !! m = Some "") moves →
    I moves v bm beta s →
    ∃ v' bm' s' rest beta',
      min_loop rec ai hu b moves v bm alpha0 beta s = (Ok (v', bm', b), s') ∧
      I rest v' bm' beta' s' ∧ (rest = [] ∨ alpha0 >= beta') ∧
      (moves = [] ∧ rest = [] ∨ length rest < length moves)%nat.
Proof.
  intros Hstep moves. induction moves as [|m moves IH];
    intros v bm beta s Hempty HI; simpl.
  - exists v, bm, s, [], beta. split_and!; auto.
  - apply Forall_cons in Hempty as [Hm Hempty].
    destruct (Hstep _ _ _ _ _ _ HI) as (score & mv & s1 & -> & HI').
    rewrite (insert_undo b m hu Hm).
    destruct (score <? v); simpl in HI'.
    + destruct (alpha0 >=? Z.min beta score) eqn:Hbrk.
      * exists score, (Some m), s1, moves, (Z.min beta score).
        split_and!; [done..|right; lia|right; lia].
      * destruct (IH _ _ _ _ Hempty HI')
          as (v' & bm' & s' & rest & beta' & ? & ? & ? & Hlen).
        exists v', bm', s', rest, beta'. split_and!; [done..|].
        right. destruct Hlen as [[-> ->]|Hlen]; simpl; lia.
    + destruct (alpha0 >=? Z.min beta v) eqn:Hbrk.
      * exists v, bm, s1, moves, (Z.min beta v).
        split_and!; [done..|right; lia|right; lia].
      * destruct (IH _ _ _ _ Hempty HI')
          as (v' & bm' & s' & rest & beta' & ? & ? & ? & Hlen).
        exists v', bm', s', rest, beta'. split_and!; [done..|].
        right. destruct Hlen as [[-> ->]|Hlen]; simpl; lia.
Qed.
End LoopRules.

(** ** The decorator is transparent *)

(** Forward simulation between two instances of the body: when the second
    recursive call returns whatever the first returns, in related states,
    so do the loops and the body. *)
Section Simulation.
Context {S1 S2 : Type} (R : S1 → S2 → Prop).
Context (rec1 : list string → string → string → bool → Z → Z → S1 →
                res (Z * option nat) * S1).
Context (rec2 : list string → string → string → bool → Z → Z → S2 →
                res (Z * option nat) * S2).
Hypothesis Hrec : ∀ b ai hu mx alpha beta s1 s2 r s1',
  R s1 s2 → rec1 b ai hu mx alpha beta s1 = (Ok r, s1') →
  ∃ s2', rec2 b ai hu mx alpha beta s2 = (Ok r, s2') ∧ R s1' s2'.

Lemma max_loop_sim ai hu moves : ∀ b v bm alpha beta s1 s2 r s1',
  R s1 s2 → max_loop rec1 ai hu b moves v bm alpha beta s1 = (Ok r, s1') →
  ∃ s2', max_loop rec2 ai hu b moves v bm alpha beta s2 = (Ok r, s2') ∧ R s1' s2'.
Proof.
  induction moves as [|m moves IH]; intros b v bm alpha beta s1 s2 r s1' HR;
    simpl.
  - intros [= <- <-]. eauto.
  - destruct (rec1 _ ai hu false alpha beta s1) as [[[score mv]|e] t1] eqn:E1;
      [|done].
    destruct (Hrec _ _ _ _ _ _ _ _ _ _ HR E1) as (t2 & -> & HR').
    destruct (score >? v); simpl.
    + destruct (Z.max alpha score >=? beta).
      * intros [= <- <-]. eauto.
      * by apply IH.
    + destruct (Z.max alpha v >=? beta).
      * intros [= <- <-]. eauto.
      * by apply IH.
Qed.

Lemma min_loop_sim ai hu moves : ∀ b v bm alpha beta s1 s2 r s1',
  R s1 s2 → min_loop rec1 ai hu b moves v bm alpha beta s1 = (Ok r, s1') →
  ∃ s2', min_loop rec2 ai hu b moves v bm alpha beta s2 = (Ok r, s2') ∧ R s1' s2'.
Proof.
  induction moves as [|m moves IH]; intros b v bm alpha beta s1 s2 r s1' HR;
    simpl.
  - intros [= <- <-]. eauto.
  - destruct (rec1 _ ai hu true alpha beta s1) as [[[score mv]|e] t1] eqn:E1;
      [|done].
    destruct (Hrec _ _ _ _ _ _ _ _ _ _ HR E1) as (t2 & -> & HR').
    destruct (score <? v); simpl.
    + destruct (alpha >=? Z.min beta score).
      * intros [= <- <-]. eauto.
      * by apply IH.
    + destruct (alpha >=? Z.min beta v).
      * intros [= <- <-]. eauto.
      * by apply IH.
Qed.

Lemma minimax_body_sim b ai hu mx alpha beta s1 s2 r s1' :
  R s1 s2 → minimax_body rec1 b ai hu mx alpha beta s1 = (Ok r, s1') →
  ∃ s2', minimax_body rec2 b ai hu mx alpha beta s2 = (Ok r, s2') ∧ R s1' s2'.
Proof.
  intros HR. unfold minimax_body.
  destruct (check_winner b) as [result|e]; [|done].
  destruct (result_is result ai); [intros [= <- <-]; eauto|].
  destruct (result_is result hu); [intros [= <- <-]; eauto|].
  destruct (result_is result "Draw"); [intros [= <- <-]; eauto|].
  destruct mx.
  - destruct (max_loop rec1 _ _ _ _ _ _ _ _ s1) as [[[[v bm] b']|e] t1] eqn:E1;
      [|done].
    destruct (max_loop_sim _ _ _ _ _ _ _ _ _ _ _ _ HR E1) as (t2 & -> & HR').
    intros [= <- <-]. eauto.
  - destruct (min_loop rec1 _ _ _ _ _ _ _ _ s1) as [[[[v bm] b']|e] t1] eqn:E1;
      [|done].
    destruct (min_loop_sim _ _ _ _ _ _ _ _ _ _ _ _ HR E1) as (t2 & -> & HR').
    intros [= <- <-]. eauto.
Qed.
End Simulation.

Lemma minimax_S fuel b ai hu mx alpha beta :
  minimax (S fuel) b ai hu mx alpha beta =
  (minimax_body (stateless (minimax fuel)) b ai hu mx alpha beta tt).1.
Proof. done. Qed.

Lemma minimax_cached_S fuel b ai hu mx alpha beta c :
  minimax_cached (S fuel) b ai hu mx alpha beta c =
  match c !! (b, ai, hu, mx, alpha, beta) with
  | Some r => (Ok r, c)
  | None =>
      match minimax_body (minimax_cached fuel) b ai hu mx alpha beta c with
      | (Ok r, c') => (Ok r, <[(b, ai, hu, mx, alpha, beta) := r]> c')
      | (Raise e, c') => (Raise e, c')
      end
  end.
Proof. done. Qed.

Lemma minimax_cached_hit fuel b ai hu mx alpha beta c r :
  c !! (b, ai, hu, mx, alpha, beta) = Some r →
  minimax_cached fuel b ai hu mx alpha beta c = (Ok r, c).
Proof. intros H. destruct fuel; simpl; by rewrite H. Qed.

(** More recursion depth never changes a value already returned. *)
Lemma minimax_mono fuel : ∀ fuel' b ai hu mx alpha beta r,
  (fuel ≤ fuel')%nat →
  minimax fuel b ai hu mx alpha beta = Ok r →
  minimax fuel' b ai hu mx alpha beta = Ok r.
Proof.
  induction fuel as [|fuel IH]; intros fuel' b ai hu mx alpha beta r Hle; [done|].
  destruct fuel' as [|fuel']; [lia|]. rewrite !minimax_S.
  destruct (minimax_body (stateless (minimax fuel)) _ _ _ _ _ _ tt)
    as [x []] eqn:E. simpl. intros ->.
  assert (∀ b ai hu mx alpha beta (s1 s2 : unit) r s1',
            True → stateless (minimax fuel) b ai hu mx alpha beta s1 = (Ok r, s1') →
            ∃ s2', stateless (minimax fuel') b ai hu mx alpha beta s2 = (Ok r, s2')
                   ∧ True) as Hrec.
  { unfold stateless. intros ??????? [] ?? _ [= H]. exists tt. split; [|done].
    f_equal. apply IH; [lia|done]. }
  by destruct (minimax_body_sim _ _ _ Hrec _ _ _ _ _ _ _ tt _ _ I E)
    as ([] & -> & _).
Qed.

Lemma minimax_det fuel fuel' b ai hu mx alpha beta r r' :
  minimax fuel b ai hu mx alpha beta = Ok r →
  minimax fuel' b ai hu mx alpha beta = Ok r' → r = r'.
Proof.
  intros H H'.
  apply (minimax_mono _ (fuel `max` fuel')%nat) in H; [|lia].
  apply (minimax_mono _ (fuel `max` fuel')%nat) in H'; [|lia].
  congruence.
Qed.

Lemma cache_ok_empty : cache_ok ∅.
Proof. intros b ai hu mx alpha beta r H. by rewrite lookup_empty in H. Qed.

Lemma cache_ok_insert c fuel b ai hu mx alpha beta r :
  cache_ok c → minimax fuel b ai hu mx alpha beta = Ok r →
  cache_ok (<[(b, ai, hu, mx, alpha, beta) := r]> c).
Proof.
  intros Hc Hr b' ai' hu' mx' alpha' beta' r'.
  destruct (decide ((b, ai, hu, mx, alpha, beta) = (b', ai', hu', mx', alpha', beta')))
    as [[= <- <- <- <- <- <-]|Hne].
  - rewrite lookup_insert_eq. intros [= <-]. eauto.
  - rewrite lookup_insert_ne; [|done]. apply Hc.
Qed.

(** Whatever the undecorated function returns, the decorated one returns
    too, from any cache whose entries are right, and leaves such a cache. *)
Lemma minimax_cached_complete fuel : ∀ b ai hu mx alpha beta r c,
  cache_ok c →
  minimax fuel b ai hu mx alpha beta = Ok r →
  ∃ c', minimax_cached fuel b ai hu mx alpha beta c = (Ok r, c') ∧ cache_ok c'.
Proof.
  induction fuel as [|fuel IH]; intros b ai hu mx alpha beta r c Hc Hr; [done|].
  rewrite minimax_cached_S.
  destruct (c !! (b, ai, hu, mx, alpha, beta)) as [r0|] eqn:Hhit.
  - destruct (Hc _ _ _ _ _ _ _ Hhit) as (fuel0 & Hr0).
    rewrite (minimax_det _ _ _ _ _ _ _ _ _ _ Hr0 Hr). eauto.
  - pose proof Hr as Hr'. rewrite minimax_S in Hr.
    destruct (minimax_body (stateless (minimax fuel)) _ _ _ _ _ _ tt)
      as [x []] eqn:E. simpl in Hr. subst x.
    assert (∀ b ai hu mx alpha beta (s1 : unit) (s2 : cache) r s1',
              cache_ok s2 →
              stateless (minimax fuel) b ai hu mx alpha beta s1 = (Ok r, s1') →
              ∃ s2', minimax_cached fuel b ai hu mx alpha beta s2 = (Ok r, s2')
                     ∧ cache_ok s2') as Hrec.
    { unfold stateless. intros ?????????? Hs [= H]. by apply IH. }
    destruct (minimax_body_sim (λ _ c, cache_ok c) _ _ Hrec _ _ _ _ _ _ _ c _ _ Hc E)
      as (c' & -> & Hc').
    eexists. split; [done|]. by eapply cache_ok_insert.
Qed.

(** ** Outcome of a board after one placement *)

Lemma line_full_insert b m x l y :
  b !! m = Some "" → line_full (<[m := x]> b) l y → line_full b l y ∨ y = x.
Proof.
  intros Hm (H1 & H2 & H3 & Hy).
  assert (∀ i, <[m := x]> b !! i = Some y → b !! i = Some y ∨ y = x) as Hcell.
  { intros i Hi. destruct (decide (m = i)) as [->|Hne].
    - right. rewrite list_lookup_insert_eq in Hi; [congruence|].
      by eapply lookup_lt_Some.
    - left. by rewrite list_lookup_insert_ne in Hi. }
  destruct (Hcell _ H1) as [?|?]; [|by right].
  destruct (Hcell _ H2) as [?|?]; [|by right].
  destruct (Hcell _ H3) as [?|?]; [|by right].
  by left.
Qed.

Lemma line_full_insert_other b m x l y :
  b !! m = Some "" → line_full b l y → line_full (<[m := x]> b) l y.
Proof.
  intros Hm (H1 & H2 & H3 & Hy).
  assert (∀ i, b !! i = Some y → <[m := x]> b !! i = Some y) as Hcell.
  { intros i Hi. rewrite list_lookup_insert_ne; [done|]. congruence. }
  split_and!; auto.
Qed.

Lemma check_winner_None b :
  length b = 9%nat → check_winner b = Ok None →
  none_full b WINNING_LINES ∧ "" ∈ b.
Proof.
  intros Hlen Hr. destruct (check_winner_spec b Hlen) as (r & Hr' & Hcases).
  rewrite Hr in Hr'. injection Hr' as <-.
  destruct Hcases as [(l & x & _ & [=])|[Hno Hd]]. split; [done|].
  by destruct (decide ("" ∈ b)).
Qed.

Lemma check_winner_none_full b :
  length b = 9%nat → none_full b WINNING_LINES →
  check_winner b = Ok (if decide ("" ∈ b) then None else Some "Draw").
Proof.
  intros Hlen Hno. destruct (check_winner_spec b Hlen) as (r & -> & Hcases).
  destruct Hcases as [(l & x & Hf & _)|[_ ->]]; [|done].
  by apply first_full_not_none in Hf.
Qed.

(** On a board in progress, a placement of [x] either completes a line of
    [x], fills the board, or leaves the game in progress. *)
Lemma check_winner_insert b m x :
  length b = 9%nat → check_winner b = Ok None → b !! m = Some "" →
  check_winner (<[m := x]> b) = Ok None
  ∨ check_winner (<[m := x]> b) = Ok (Some x)
  ∨ check_winner (<[m := x]> b) = Ok (Some "Draw").
Proof.
  intros Hlen Hr Hm. destruct (check_winner_None b Hlen Hr) as [Hno _].
  destruct (check_winner_spec (<[m := x]> b)) as (r & -> & Hcases).
  { by rewrite length_insert. }
  destruct Hcases as [(l & y & [Hl Hf]%first_full_elem & ->)|[_ ->]].
  - apply line_full_insert in Hf; [|done].
    destruct Hf as [Hf| ->]; [by destruct (Hno l y)|auto].
  - destruct (decide _); auto.
Qed.

(** ** Values and moves returned by the search *)

Lemma over_marks_node_ok b ai hu :
  length b = 9%nat → over_marks b ai hu → ai ≠ "" → hu ≠ "" → node_ok b ai hu.
Proof.
  intros Hlen Hb Hai Hhu. split_and!; [done..|].
  destruct (check_winner_spec b Hlen) as (r & Hr & Hcases). unfold outcome_known.
  rewrite Hr. destruct Hcases as [(l & x & [_ Hf]%first_full_elem & ->)|[_ ->]].
  - destruct Hf as (H1 & _ & _ & Hx).
    apply list_elem_of_lookup_2 in H1.
    unfold over_marks in Hb. rewrite Forall_forall in Hb.
    destruct (Hb _ H1) as [?|[->| ->]]; auto. done.
  - destruct (decide _); auto.
Qed.

Lemma node_ok_insert b ai hu m x :
  node_ok b ai hu → check_winner b = Ok None → b !! m = Some "" →
  x = ai ∨ x = hu → node_ok (<[m := x]> b) ai hu.
Proof.
  intros (Hlen & Hai & Hhu & _) Hr Hm Hx. split_and!; [|done..|].
  - by rewrite length_insert.
  - unfold outcome_known.
    destruct (check_winner_insert b m x Hlen Hr Hm) as [?|[?|?]]; auto.
    destruct Hx as [-> | ->]; auto.
Qed.

Lemma minimax_won fuel b ai hu mx alpha beta :
  check_winner b = Ok (Some ai) →
  minimax (S fuel) b ai hu mx alpha beta = Ok (1, None).
Proof.
  intros Hr. rewrite minimax_S. unfold minimax_body. rewrite Hr. simpl.
  by rewrite String.eqb_refl.
Qed.

Lemma minimax_lost fuel b ai hu mx alpha beta :
  check_winner b = Ok (Some hu) → ai ≠ hu →
  minimax (S fuel) b ai hu mx alpha beta = Ok (-1, None).
Proof.
  intros Hr Hne. rewrite minimax_S. unfold minimax_body. rewrite Hr. simpl.
  rewrite String.eqb_refl.
  assert (String.eqb hu ai = false) as -> by (apply eqb_false_iff; congruence).
  done.
Qed.

Lemma minimax_terminal fuel b ai hu mx alpha beta x :
  check_winner b = Ok (Some x) → x = ai ∨ x = hu ∨ x = "Draw" →
  ∃ v, minimax (S fuel) b ai hu mx alpha beta = Ok (v, None) ∧ -1 <= v <= 1.
Proof.
  intros Hr Hx. rewrite minimax_S. unfold minimax_body. rewrite Hr. simpl.
  destruct (String.eqb x ai) eqn:E1; [exists 1; split; [done|lia]|].
  destruct (String.eqb x hu) eqn:E2; [exists (-1); split; [done|lia]|].
  destruct (String.eqb x "Draw") eqn:E3; [exists 0; split; [done|lia]|].
  apply eqb_false_iff in E1, E2, E3. by destruct Hx as [?|[?|?]].
Qed.

Lemma minimax_in_progress fuel b ai hu mx alpha beta :
  check_winner b = Ok None →
  minimax (S fuel) b ai hu mx alpha beta =
  if mx then
    match max_loop (stateless (minimax fuel)) ai hu b (available_moves b)
                   (-999) None alpha beta tt with
    | (Ok (value, best_move, _), _) => Ok (value, best_move)
    | (Raise e, _) => Raise e
    end
  else
    match min_loop (stateless (minimax fuel)) ai hu b (available_moves b)
                   999 None alpha beta tt with
    | (Ok (value, best_move, _), _) => Ok (value, best_move)
    | (Raise e, _) => Raise e
    end.
Proof.
  intros Hr. rewrite minimax_S. unfold minimax_body. rewrite Hr. simpl.
  destruct mx.
  - by destruct (max_loop _ _ _ _ _ _ _ _ _ _) as [[[[??]?]|?] ?].
  - by destruct (min_loop _ _ _ _ _ _ _ _ _ _) as [[[[??]?]|?] ?].
Qed.

(** On a board of nine cells with a known outcome the search returns, with
    enough recursion depth, a value in [-1, 1]; it returns a move, which is
    an empty cell, exactly when the game is in progress. *)
Lemma minimax_value fuel : ∀ b ai hu mx alpha beta,
  node_ok b ai hu → (count_empty b < fuel)%nat →
  ∃ v bm, minimax fuel b ai hu mx alpha beta = Ok (v, bm) ∧ -1 <= v <= 1 ∧
          match check_winner b with
          | Ok None => ∃ m, bm = Some m ∧ b !! m = Some ""
          | _ => bm = None
          end.
Proof.
  induction fuel as [|fuel IH]; intros b ai hu mx alpha beta Hok Hfuel; [lia|].
  pose proof Hok as (Hlen & Hai & Hhu & Hout).
  destruct Hout as [Hr|Hr].
  2:{ assert (∃ x, check_winner b = Ok (Some x) ∧ (x = ai ∨ x = hu ∨ x = "Draw"))
        as (x & Hx & Hcases) by (destruct Hr as [?|[?|?]]; eauto 6).
      destruct (minimax_terminal fuel b ai hu mx alpha beta x Hx Hcases)
        as (v & -> & Hv).
      exists v, None. by rewrite Hx. }
  rewrite (minimax_in_progress _ _ _ _ _ _ _ Hr), Hr.
  destruct (check_winner_None b Hlen Hr) as [_ Hempty].
  apply count_empty_pos in Hempty.
  assert (∀ m x mx' a' b', b !! m = Some "" → x = ai ∨ x = hu →
            ∃ score mv, minimax fuel (<[m := x]> b) ai hu mx' a' b' = Ok (score, mv)
                        ∧ -1 <= score <= 1) as Hchild.
  { intros m x mx' a' b' Hm Hx.
    destruct (IH (<[m := x]> b) ai hu mx' a' b') as (score & mv & ? & ? & _); eauto.
    - by apply node_ok_insert.
    - assert (x ≠ "") as Hne by (by destruct Hx as [-> | ->]).
      pose proof (count_empty_insert b m x Hm Hne). lia. }
  destruct mx.
  - destruct (max_loop_rule (stateless (minimax fuel)) ai hu b beta
                (λ rest v bm _ _,
                   Forall (λ m, b !! m = Some "") rest ∧
                   ((v = -999 ∧ rest = available_moves b) ∨
                    (-1 <= v <= 1 ∧ ∃ m, bm = Some m ∧ b !! m = Some ""))))
      with (moves := available_moves b) (v := -999) (bm := @None nat)
           (alpha := alpha) (s := tt)
      as (v' & bm' & [] & rest & alpha' & -> & [_ HI] & _ & Hlenrest).
    + intros m rest v bm a [] [[Hm Hrest]%Forall_cons HI].
      destruct (Hchild m ai false a beta Hm) as (score & mv & Hs & Hscore); [auto|].
      exists score, mv, tt. unfold stateless. rewrite Hs. split; [done|].
      split; [done|]. right.
      destruct (Z.gtb_spec score v); simpl; [by eauto|].
      destruct HI as [[-> _]|HI]; [lia|]. split; [lia|]. apply HI.
    + apply available_moves_empty.
    + split; [apply available_moves_empty|]. by left.
    + exists v', bm'. split; [done|].
      destruct HI as [[-> ->]|[Hv Hbm]]; [|done].
      unfold count_empty in Hempty. destruct Hlenrest as [[E _]|?]; [|lia].
      rewrite E in Hempty. simpl in Hempty. lia.
  - destruct (min_loop_rule (stateless (minimax fuel)) ai hu b alpha
                (λ rest v bm _ _,
                   Forall (λ m, b !! m = Some "") rest ∧
                   ((v = 999 ∧ rest = available_moves b) ∨
                    (-1 <= v <= 1 ∧ ∃ m, bm = Some m ∧ b !! m = Some ""))))
      with (moves := available_moves b) (v := 999) (bm := @None nat)
           (beta := beta) (s := tt)
      as (v' & bm' & [] & rest & beta' & -> & [_ HI] & _ & Hlenrest).
    + intros m rest v bm a [] [[Hm Hrest]%Forall_cons HI].
      destruct (Hchild m hu true alpha a Hm) as (score & mv & Hs & Hscore); [auto|].
      exists score, mv, tt. unfold stateless. rewrite Hs. split; [done|].
      split; [done|]. right.
      destruct (Z.ltb_spec score v); simpl; [by eauto|].
      destruct HI as [[-> _]|HI]; [lia|]. split; [lia|]. apply HI.
    + apply available_moves_empty.
    + split; [apply available_moves_empty|]. by left.
    + exists v', bm'. split; [done|].
      destruct HI as [[-> ->]|[Hv Hbm]]; [|done].
      unfold count_empty in Hempty. destruct Hlenrest as [[E _]|?]; [|lia].
      rewrite E in Hempty. simpl in Hempty. lia.
Qed.

(** ** Termination *)

(** If the recursive call returns on every board of nine cells with fewer
    than [n] empty cells, the body returns on every such board with at most
    [n] empty cells. *)
Section Totality.
Context {St : Type}.
Context (rec : list string → string → string → bool → Z → Z → St →
               res (Z * option nat) * St).
Context (ai hu : string) (n : nat).
Hypothesis Hai : ai ≠ "".
Hypothesis Hhu : hu ≠ "".
Hypothesis Hrec : ∀ b mx alpha beta s,
  length b = 9%nat → (count_empty b < n)%nat →
  ∃ r s', rec b ai hu mx alpha beta s = (Ok r, s').

Lemma child_returns b m x mx alpha beta s :
  length b = 9%nat → (count_empty b ≤ n)%nat → b !! m = Some "" → x ≠ "" →
  ∃ score mv s', rec (<[m := x]> b) ai hu mx alpha beta s = (Ok (score, mv), s').
Proof.
  intros Hlen Hn Hm Hx.
  destruct (Hrec (<[m := x]> b) mx alpha beta s) as ([score mv] & s' & ?); eauto.
  - by rewrite length_insert.
  - pose proof (count_empty_insert b m x Hm Hx). lia.
Qed.

Lemma minimax_body_total b mx alpha beta s :
  length b = 9%nat → (count_empty b ≤ n)%nat →
  ∃ r s', minimax_body rec b ai hu mx alpha beta s = (Ok r, s').
Proof.
  intros Hlen Hn. unfold minimax_body.
  destruct (check_winner_spec b Hlen) as (result & -> & _).
  destruct (result_is result ai); [eauto|].
  destruct (result_is result hu); [eauto|].
  destruct (result_is result "Draw"); [eauto|].
  destruct mx.
  - destruct (max_loop_rule rec ai hu b beta
                (λ rest _ _ _ _, Forall (λ m, b !! m = Some "") rest))
      with (moves := available_moves b) (v := -999) (bm := @None nat)
           (alpha := alpha) (s := s)
      as (v' & bm' & s' & rest & alpha' & -> & _); eauto using available_moves_empty.
    intros m rest v bm a s0 [Hm Hrest]%Forall_cons.
    destruct (child_returns b m ai false a beta s0) as (score & mv & s1 & ->); auto.
    exists score, mv, s1. split; [done|]. by destruct (score >? v).
  - destruct (min_loop_rule rec ai hu b alpha
                (λ rest _ _ _ _, Forall (λ m, b !! m = Some "") rest))
      with (moves := available_moves b) (v := 999) (bm := @None nat)
           (beta := beta) (s := s)
      as (v' & bm' & s' & rest & beta' & -> & _); eauto using available_moves_empty.
    intros m rest v bm a s0 [Hm Hrest]%Forall_cons.
    destruct (child_returns b m hu true alpha a s0) as (score & mv & s1 & ->); auto.
    exists score, mv, s1. split; [done|]. by destruct (score <? v).
Qed.
End Totality.

Lemma minimax_cached_total fuel ai hu :
  ai ≠ "" → hu ≠ "" →
  ∀ b mx alpha beta c,
    length b = 9%nat → (count_empty b < fuel)%nat →
    ∃ r c', minimax_cached fuel b ai hu mx alpha beta c = (Ok r, c').
Proof.
  intros Hai Hhu. induction fuel as [|fuel IH]; intros b mx alpha beta c Hlen Hfuel;
    [lia|].
  rewrite minimax_cached_S. destruct (c !! _) as [r|]; [eauto|].
  destruct (minimax_body_total (minimax_cached fuel) ai hu fuel Hai Hhu IH
              b mx alpha beta c) as (r & c' & ->); [done|lia|eauto].
Qed.

Lemma ai_move_pure fuel ai hu w v mv :
  cache_ok (lru w) →
  minimax fuel (board_obj w) ai hu true (-999) 999 = Ok (v, mv) →
  ∃ c', minimax_cached fuel (board_obj w) ai hu true (-999) 999 (lru w)
          = (Ok (v, mv), c')
        ∧ ai_move fuel ai hu w = (Ok mv, World (board_obj w) c') ∧ cache_ok c'.
Proof.
  intros Hc Hr.
  destruct (minimax_cached_complete _ _ _ _ _ _ _ _ _ Hc Hr) as (c' & E & Hc').
  exists c'. unfold ai_move. by rewrite E.
Qed.

(** ** The local list of a search node *)

Section LocalBoard.
Context {St : Type}.
Context (rec : list string → string → string → bool → Z → Z → St →
               res (Z * option nat) * St).

(** Whenever the maximizing loop ends, by running out of moves or by
    pruning, every placement it made has been undone. *)
Lemma max_loop_board ai hu b moves : ∀ v bm alpha beta s r s',
  Forall (λ m, b !! m = Some "") moves →
  max_loop rec ai hu b moves v bm alpha beta s = (Ok r, s') → r.2 = b.
Proof.
  induction moves as [|m moves IH]; intros v bm alpha beta s r s' Hempty; simpl.
  - by intros [= <- <-].
  - apply Forall_cons in Hempty as [Hm Hempty].
    destruct (rec _ ai hu false alpha beta s) as [[[score mv]|e] s1]; [|done].
    rewrite (insert_undo b m ai Hm).
    destruct (score >? v); simpl.
    + destruct (Z.max alpha score >=? beta); [by intros [= <- <-]|by apply IH].
    + destruct (Z.max alpha v >=? beta); [by intros [= <- <-]|by apply IH].
Qed.

Lemma min_loop_board ai hu b moves : ∀ v bm alpha beta s r s',
  Forall (λ m, b !! m = Some "") moves →
  min_loop rec ai hu b moves v bm alpha beta s = (Ok r, s') → r.2 = b.
Proof.
  induction moves as [|m moves IH]; intros v bm alpha beta s r s' Hempty; simpl.
  - by intros [= <- <-].
  - apply Forall_cons in Hempty as [Hm Hempty].
    destruct (rec _ ai hu true alpha beta s) as [[[score mv]|e] s1]; [|done].
    rewrite (insert_undo b m hu Hm).
    destruct (score <? v); simpl.
    + destruct (alpha >=? Z.min beta score); [by intros [= <- <-]|by apply IH].
    + destruct (alpha >=? Z.min beta v); [by intros [= <- <-]|by apply IH].
Qed.
End LocalBoard.

(** ** The children a loop explores *)





Section ExploredFacts.
Context {St : Type}.
Context (rec : list string → string → string → bool → Z → Z → St →
               res (Z * option nat) * St).




End ExploredFacts.

Lemma available_from_sorted i b :
  StronglySorted lt (available_from i b) ∧
  Forall (λ m, i ≤ m)%nat (available_from i b).
Proof.
  revert i. induction b as [|v b IH]; intros i; simpl.
  - split; constructor.
  - destruct (IH (S i)) as [Hs Hge].
    assert (Forall (λ m, i ≤ m)%nat (available_from (S i) b)) as Hge'.
    { eapply Forall_impl; [exact Hge|]. simpl. lia. }
    destruct (String.eqb v ""); [|done]. split.
    + constructor; [done|]. eapply Forall_impl; [exact Hge|]. simpl. lia.
    + by constructor.
Qed.

Lemma available_moves_sorted b : StronglySorted lt (available_moves b).
Proof. apply available_from_sorted. Qed.

Lemma window_call :
  minimax_cached 4 window_board "X" "O" true (-999) 999 ∅
  = (Ok (1, Some 8%nat), window_cache).
Proof.
  unfold window_cache.
  destruct (minimax_cached 4 window_board "X" "O" true (-999) 999 ∅)
    as [r c] eqn:E.
  replace r with (r, c).1 by done. rewrite <- E.
  apply (f_equal (λ x, (x, c))). vm_compute. reflexivity.
Qed.

(** ** The search does not depend on which strings the marks are *)

Lemma marks_swap a h : marks a h → marks h a.
Proof. intros (? & ? & ? & ? & ?). by split_and!. Qed.

Section Renaming.
Context (a h a' h' : string).
Hypothesis Hm : marks a h.
Hypothesis Hm' : marks a' h'.

Local Abbreviation ren := (rename a h a' h').

Lemma rename_empty : ren "" = "".
Proof.
  destruct Hm as (Ha & Hh & _). unfold rename.
  assert (String.eqb "" a = false) as -> by (apply eqb_false_iff; congruence).
  assert (String.eqb "" h = false) as -> by (apply eqb_false_iff; congruence).
  done.
Qed.

Lemma rename_ai : ren a = a'.
Proof. unfold rename. by rewrite String.eqb_refl. Qed.

Lemma rename_hu : ren h = h'.
Proof.
  destruct Hm as (_ & _ & Hne & _). unfold rename.
  assert (String.eqb h a = false) as -> by (apply eqb_false_iff; congruence).
  by rewrite String.eqb_refl.
Qed.

Lemma rename_draw : ren "Draw" = "Draw".
Proof.
  destruct Hm as (_ & _ & _ & Ha & Hh). unfold rename.
  assert (String.eqb "Draw" a = false) as -> by (apply eqb_false_iff; congruence).
  assert (String.eqb "Draw" h = false) as -> by (apply eqb_false_iff; congruence).
  done.
Qed.

Lemma rename_swap c : rename h a h' a' c = ren c.
Proof.
  destruct Hm as (_ & _ & Hne & _). unfold rename.
  destruct (String.eqb_spec c h) as [Hc|?]; destruct (String.eqb_spec c a);
    congruence.
Qed.

Lemma rename_eqb c d :
  known a h c → known a h d → String.eqb (ren c) (ren d) = String.eqb c d.
Proof.
  destruct Hm as (? & ? & ? & ? & ?), Hm' as (? & ? & ? & ? & ?).
  intros [-> | [-> | [-> | ->]]] [-> | [-> | [-> | ->]]];
    rewrite ?rename_empty, ?rename_ai, ?rename_hu, ?rename_draw;
    repeat match goal with
           | |- context [String.eqb ?x ?y] => destruct (String.eqb_spec x y)
           end; congruence.
Qed.

Lemma over_marks_known b i c : over_marks b a h → b !! i = Some c → known a h c.
Proof.
  intros Hb Hi. unfold over_marks in Hb. rewrite Forall_forall in Hb.
  destruct (Hb c) as [?|[?|?]]; [by eapply list_elem_of_lookup_2|unfold known..];
    auto.
Qed.

Lemma over_marks_insert b m x :
  over_marks b a h → x = "" ∨ x = a ∨ x = h → over_marks (<[m := x]> b) a h.
Proof. intros Hb Hx. by apply Forall_insert. Qed.

Lemma getitem_rename b i :
  getitem (ren <$> b) i = res_map ren (getitem b i).
Proof. unfold getitem. rewrite list_lookup_fmap. by destruct (b !! i). Qed.

Lemma line_winner_rename b l :
  over_marks b a h →
  line_winner (ren <$> b) l = res_map (option_map ren) (line_winner b l).
Proof.
  intros Hb. destruct l as [[i j] k]. unfold line_winner.
  rewrite !getitem_rename. unfold getitem.
  destruct (b !! i) as [x|] eqn:Hx; simpl; [|done].
  pose proof (over_marks_known _ _ _ Hb Hx) as Kx.
  rewrite <- rename_empty at 1. rewrite rename_eqb by (done || by left).
  destruct (String.eqb x ""); [done|].
  destruct (b !! j) as [y|] eqn:Hy; simpl; [|done].
  pose proof (over_marks_known _ _ _ Hb Hy) as Ky.
  rewrite rename_eqb by done.
  destruct (String.eqb x y); simpl; [|done].
  destruct (b !! k) as [z|] eqn:Hz; simpl; [|done].
  pose proof (over_marks_known _ _ _ Hb Hz) as Kz.
  rewrite rename_eqb by done.
  by destruct (String.eqb y z).
Qed.

Lemma first_line_rename b ls :
  over_marks b a h →
  first_line (ren <$> b) ls = res_map (option_map ren) (first_line b ls).
Proof.
  intros Hb. induction ls as [|l ls IH]; simpl; [done|].
  rewrite line_winner_rename by done.
  by destruct (line_winner b l) as [[x|]|e].
Qed.

Lemma contains_rename b :
  over_marks b a h → contains (ren <$> b) "" = contains b "".
Proof.
  intros Hb. unfold contains. induction Hb as [|c b Hc Hb IH]; [done|].
  rewrite fmap_cons. cbn [existsb]. rewrite IH. f_equal. rewrite <- rename_empty at 1.
  apply rename_eqb; [by left|]. unfold known. destruct Hc as [?|[?|?]]; auto.
Qed.

Lemma check_winner_rename b :
  over_marks b a h →
  check_winner (ren <$> b) = res_map (option_map ren) (check_winner b).
Proof.
  intros Hb. unfold check_winner.
  rewrite first_line_rename, contains_rename by done.
  destruct (first_line b WINNING_LINES) as [[x|]|e]; simpl; [done| |done].
  destruct (contains b ""); simpl; [done|]. by rewrite rename_draw.
Qed.

(** The outcome of a board over the marks is a known string. *)
Lemma first_line_known b ls x :
  over_marks b a h → first_line b ls = Ok (Some x) → known a h x.
Proof.
  intros Hb. induction ls as [|l ls IH]; simpl; [done|].
  destruct (line_winner b l) as [[y|]|e] eqn:E; simpl; [|done..].
  intros [= ->]. destruct l as [[i j] k]. unfold line_winner in E.
  unfold getitem in E. destruct (b !! i) as [x'|] eqn:Hx; simpl in E; [|done].
  destruct (String.eqb x' ""); [done|].
  destruct (b !! j) as [y|]; simpl in E; [|done].
  destruct (negb _); [done|].
  destruct (b !! k) as [z|]; simpl in E; [|done].
  destruct (String.eqb y z); [|done]. injection E as ->.
  by eapply over_marks_known.
Qed.

Lemma check_winner_known b x :
  over_marks b a h → check_winner b = Ok (Some x) → known a h x.
Proof.
  intros Hb. unfold check_winner.
  destruct (first_line b WINNING_LINES) as [[y|]|e] eqn:E; simpl; [| |done].
  - intros [= ->]. by eapply first_line_known.
  - destruct (negb _); [|done]. intros [= <-]. unfold known. auto.
Qed.

Lemma result_is_rename r x :
  (∀ y, r = Some y → known a h y) → known a h x →
  result_is (option_map ren r) (ren x) = result_is r x.
Proof.
  intros Hr Hx. destruct r as [y|]; simpl; [|done]. apply rename_eqb; auto.
Qed.

Lemma available_from_rename i b :
  over_marks b a h → available_from i (ren <$> b) = available_from i b.
Proof.
  intros Hb. revert i. induction Hb as [|c b Hc Hb IH]; intros i; [done|].
  rewrite fmap_cons. cbn [available_from]. rewrite !IH.
  rewrite <- rename_empty at 1. rewrite rename_eqb; [done| |by left].
  unfold known. destruct Hc as [?|[?|?]]; auto.
Qed.
End Renaming.

Section RenamingSearch.
Context (a h a' h' : string).
Hypothesis Hm : marks a h.
Hypothesis Hm' : marks a' h'.

Local Abbreviation ren := (rename a h a' h').

Lemma insert_rename_ai (b : list string) m :
  <[m := a']> (ren <$> b) = ren <$> <[m := a]> b.
Proof. by rewrite list_fmap_insert, rename_ai. Qed.

Lemma insert_rename_hu (b : list string) m :
  <[m := h']> (ren <$> b) = ren <$> <[m := h]> b.
Proof. by rewrite list_fmap_insert, rename_hu. Qed.

Lemma insert_rename_empty (b : list string) m :
  <[m := ""]> (ren <$> b) = ren <$> <[m := ""]> b.
Proof. by rewrite list_fmap_insert, rename_empty. Qed.

Section Loops.
Context (rec rec' : list string → string → string → bool → Z → Z → unit →
                    res (Z * option nat) * unit).
Hypothesis Hrec : ∀ b mx alpha beta,
  over_marks b a h →
  rec' (ren <$> b) a' h' mx alpha beta tt = rec b a h mx alpha beta tt.

Lemma max_loop_rename moves : ∀ b v bm alpha beta,
  over_marks b a h →
  max_loop rec' a' h' (ren <$> b) moves v bm alpha beta tt =
  match max_loop rec a h b moves v bm alpha beta tt with
  | (Ok (v', bm', bf), u) => (Ok (v', bm', ren <$> bf), u)
  | (Raise e, u) => (Raise e, u)
  end.
Proof.
  destruct Hm as (Ha & Hh & _).
  induction moves as [|m moves IH]; intros b v bm alpha beta Hb; simpl; [done|].
  rewrite insert_rename_ai, Hrec by (apply over_marks_insert; auto).
  destruct (rec _ a h false alpha beta tt) as [[[score mv]|e] []]; [|done].
  rewrite insert_rename_empty.
  assert (over_marks (<[m := ""]> (<[m := a]> b)) a h) as Hb2
    by (repeat apply over_marks_insert; auto).
  destruct (score >? v).
  - destruct (Z.max alpha score >=? beta); [done|by apply IH].
  - destruct (Z.max alpha v >=? beta); [done|by apply IH].
Qed.

Lemma min_loop_rename moves : ∀ b v bm alpha beta,
  over_marks b a h →
  min_loop rec' a' h' (ren <$> b) moves v bm alpha beta tt =
  match min_loop rec a h b moves v bm alpha beta tt with
  | (Ok (v', bm', bf), u) => (Ok (v', bm', ren <$> bf), u)
  | (Raise e, u) => (Raise e, u)
  end.
Proof.
  destruct Hm as (Ha & Hh & _).
  induction moves as [|m moves IH]; intros b v bm alpha beta Hb; simpl; [done|].
  rewrite insert_rename_hu, Hrec by (apply over_marks_insert; auto).
  destruct (rec _ a h true alpha beta tt) as [[[score mv]|e] []]; [|done].
  rewrite insert_rename_empty.
  assert (over_marks (<[m := ""]> (<[m := h]> b)) a h) as Hb2
    by (repeat apply over_marks_insert; auto).
  destruct (score <? v).
  - destruct (alpha >=? Z.min beta score); [done|by apply IH].
  - destruct (alpha >=? Z.min beta v); [done|by apply IH].
Qed.

Lemma minimax_body_rename b mx alpha beta :
  over_marks b a h →
  minimax_body rec' (ren <$> b) a' h' mx alpha beta tt =
  minimax_body rec b a h mx alpha beta tt.
Proof.
  intros Hb. unfold minimax_body.
  rewrite (check_winner_rename a h a' h' Hm Hm' b Hb).
  destruct (check_winner b) as [r|e] eqn:Hr; simpl; [|done].
  assert (∀ y, r = Some y → known a h y) as Kr.
  { intros y ->. by eapply check_winner_known. }
  pose proof (result_is_rename a h a' h' Hm Hm' r a Kr) as Ea.
  pose proof (result_is_rename a h a' h' Hm Hm' r h Kr) as Eh.
  pose proof (result_is_rename a h a' h' Hm Hm' r "Draw" Kr) as Ed.
  rewrite (rename_ai a h a' h') in Ea. rewrite (rename_hu a h a' h' Hm) in Eh.
  rewrite (rename_draw a h a' h' Hm) in Ed. unfold known in Ea, Eh, Ed.
  rewrite Ea, Eh, Ed by auto.
  destruct (result_is r a); [done|]. destruct (result_is r h); [done|].
  destruct (result_is r "Draw"); [done|].
  unfold available_moves. rewrite (available_from_rename a h a' h' Hm Hm') by done.
  destruct mx.
  - rewrite max_loop_rename by done.
    by destruct (max_loop rec _ _ _ _ _ _ _ _ _) as [[[[??]?]|?] ?].
  - rewrite min_loop_rename by done.
    by destruct (min_loop rec _ _ _ _ _ _ _ _ _) as [[[[??]?]|?] ?].
Qed.
End Loops.

(** The search on a board over the marks [a], [h] returns what it returns on
    the renamed board for the marks [a'], [h']. *)
Lemma minimax_rename fuel : ∀ b mx alpha beta,
  over_marks b a h →
  minimax fuel (ren <$> b) a' h' mx alpha beta = minimax fuel b a h mx alpha beta.
Proof.
  induction fuel as [|fuel IH]; intros b mx alpha beta Hb; [done|].
  rewrite !minimax_S. f_equal. apply minimax_body_rename; [|done].
  intros b0 mx0 alpha0 beta0 Hb0. unfold stateless. f_equal. by apply IH.
Qed.
End RenamingSearch.

(** ** Self-play *)

Lemma self_play_complete rounds fuel : ∀ mover other w r b',
  cache_ok (lru w) →
  self_play_stateless rounds fuel mover other (board_obj w) = Ok (r, b') →
  ∃ c', self_play rounds fuel mover other w = (Ok r, World b' c') ∧ cache_ok c'.
Proof.
  induction rounds as [|rounds IH]; intros mover other [b c] r b' Hc; simpl in *.
  - destruct (check_winner b) as [[x|]|e]; [| |done]; intros [= <- <-]; eauto.
  - destruct (check_winner b) as [[x|]|e]; [| |done]; [intros [= <- <-]; eauto|].
    destruct (minimax fuel b mover other true (-999) 999) as [[v mv]|e] eqn:E;
      [|done].
    destruct (ai_move_pure fuel mover other (World b c) v mv Hc E)
      as (c' & _ & -> & Hc'). simpl.
    destruct (match mv with Some m => Ok m | None => _ end) as [m|e]; [|done].
    intros Hplay. by apply (IH other mover (World (<[m := mover]> b) c')).
Qed.

Lemma self_play_stateless_mono rounds fuel fuel' : ∀ mover other b x,
  (fuel ≤ fuel')%nat →
  self_play_stateless rounds fuel mover other b = Ok x →
  self_play_stateless rounds fuel' mover other b = Ok x.
Proof.
  induction rounds as [|rounds IH]; intros mover other b x Hle; simpl; [done|].
  destruct (check_winner b) as [[y|]|e]; [done| |done].
  destruct (minimax fuel b mover other true (-999) 999) as [[v mv]|e] eqn:E;
    [|done].
  rewrite (minimax_mono _ _ _ _ _ _ _ _ _ Hle E).
  destruct (match mv with Some m => Ok m | None => _ end) as [m|e]; [|done].
  by apply IH.
Qed.

Lemma over_marks_swap b a h : over_marks b a h → over_marks b h a.
Proof.
  unfold over_marks. intros Hb. eapply Forall_impl; [exact Hb|].
  intros c [?|[?|?]]; auto.
Qed.

Lemma self_play_rename rounds fuel : ∀ a h a' h' b,
  marks a h → marks a' h' → over_marks b a h →
  self_play_stateless rounds fuel a' h' (rename a h a' h' <$> b) =
  res_map (λ p, (option_map (rename a h a' h') p.1, rename a h a' h' <$> p.2))
          (self_play_stateless rounds fuel a h b).
Proof.
  induction rounds as [|rounds IH]; intros a h a' h' b Hm Hm' Hb; simpl.
  - rewrite (check_winner_rename a h a' h' Hm Hm' b Hb).
    by destruct (check_winner b) as [[x|]|e].
  - rewrite (check_winner_rename a h a' h' Hm Hm' b Hb).
    destruct (check_winner b) as [[x|]|e]; simpl; [done| |done].
    rewrite (minimax_rename a h a' h' Hm Hm') by done.
    destruct (minimax fuel b a h true (-999) 999) as [[v mv]|e]; [|done].
    unfold available_moves.
    rewrite (available_from_rename a h a' h' Hm Hm') by done.
    destruct (match mv with Some m => Ok m | None => _ end) as [m|e]; [|done].
    rewrite (insert_rename_ai a h a' h').
    assert (rename a h a' h' <$> <[m := a]> b
            = rename h a h' a' <$> <[m := a]> b) as ->.
    { apply list_fmap_ext. intros i c _. symmetry. by apply rename_swap. }
    rewrite IH; [|by apply marks_swap..|].
    2:{ apply over_marks_swap, over_marks_insert; [done|].
        destruct Hm as (? & _). auto. }
    destruct (self_play_stateless rounds fuel h a _) as [[r bf]|e]; [|done].
    simpl. do 2 f_equal.
    + destruct r as [y|]; [|done]. simpl. f_equal. by apply rename_swap.
    + apply list_fmap_ext. intros i c _. by apply rename_swap.
Qed.

Lemma self_play_stateless_more rounds fuel : ∀ rounds' mover other b r b',
  (rounds ≤ rounds')%nat →
  self_play_stateless rounds fuel mover other b = Ok (Some r, b') →
  self_play_stateless rounds' fuel mover other b = Ok (Some r, b').
Proof.
  induction rounds as [|rounds IH]; intros rounds' mover other b r b' Hle.
  - simpl. destruct (check_winner b) as [[x|]|e] eqn:E; [|done..].
    intros [= <- <-]. destruct rounds'; simpl; by rewrite E.
  - destruct rounds' as [|rounds']; [lia|]. simpl.
    destruct (check_winner b) as [[x|]|e]; [done| |done].
    destruct (minimax fuel b mover other true (-999) 999) as [[v mv]|e]; [|done].
    destruct (match mv with Some m => Ok m | None => _ end) as [m|e]; [|done].
    apply IH. lia.
Qed.

Lemma marks_XO : marks "X" "O".
Proof. by split_and!. Qed.

Lemma rename_empty_board a h a' h' :
  marks a h → rename a h a' h' <$> empty_board = empty_board.
Proof.
  intros Hm. unfold empty_board. rewrite fmap_replicate.
  by rewrite (rename_empty a h a' h' Hm).
Qed.

Lemma over_marks_empty_board a h : over_marks empty_board a h.
Proof. unfold over_marks, empty_board. apply Forall_replicate. auto. Qed.

Lemma empty_board_XO :
  minimax 10 empty_board "X" "O" true (-999) 999 = Ok (0, Some 0%nat) ∧
  self_play_stateless 9 10 "X" "O" empty_board
  = Ok (Some "Draw", ["X"; "X"; "O"; "O"; "O"; "X"; "X"; "O"; "X"]).
Proof. split; vm_compute; reflexivity. Qed.

(** ** Immediate wins and threats *)

Lemma check_winner_completes b m x l :
  length b = 9%nat → none_full b WINNING_LINES → b !! m = Some "" →
  l ∈ WINNING_LINES → line_full (<[m := x]> b) l x →
  check_winner (<[m := x]> b) = Ok (Some x).
Proof.
  intros Hlen Hno Hm Hl Hfull.
  destruct (check_winner_spec (<[m := x]> b)) as (r & -> & Hcases).
  { by rewrite length_insert. }
  destruct Hcases as [(l0 & y & [Hl0 Hy]%first_full_elem & ->)|[Hno' _]].
  - apply line_full_insert in Hy; [|done].
    destruct Hy as [Hy| ->]; [by destruct (Hno l0 y)|done].
  - by destruct (Hno' l x).
Qed.

Lemma none_full_insert b m x :
  none_full b WINNING_LINES → b !! m = Some "" →
  (∀ l, l ∈ WINNING_LINES → ¬ line_full (<[m := x]> b) l x) →
  none_full (<[m := x]> b) WINNING_LINES.
Proof.
  intros Hno Hm Hx l y Hl Hy.
  destruct (line_full_insert b m x l y Hm Hy) as [Hy'| ->];
    [by apply (Hno l y)|by apply (Hx l)].
Qed.

Lemma none_full_in_progress b m :
  length b = 9%nat → none_full b WINNING_LINES → b !! m = Some "" →
  check_winner b = Ok None.
Proof.
  intros Hlen Hno Hm. rewrite (check_winner_none_full b Hlen Hno).
  rewrite decide_True; [done|]. by eapply list_elem_of_lookup_2.
Qed.

(** The least element of a strictly ascending list is its head. *)
Lemma head_available_least b m0 rest m :
  available_moves b = m0 :: rest → b !! m = Some "" → (m0 ≤ m)%nat.
Proof.
  intros E Hm%elem_of_available_moves. pose proof (available_moves_sorted b) as Hs.
  rewrite E in Hs, Hm. apply StronglySorted_inv in Hs as [_ Hall].
  apply elem_of_cons in Hm as [->|Hm]; [done|].
  rewrite Forall_forall in Hall. specialize (Hall m Hm). lia.
Qed.

Section AtNode.
Context (b : list string) (a h : string) (fuel : nat).
Hypothesis Hlen : length b = 9%nat.
Hypothesis Hno : none_full b WINNING_LINES.
Hypothesis Ha : a ≠ "".
Hypothesis Hh : h ≠ "".
Hypothesis Hfuel : (count_empty b ≤ fuel)%nat.

(** Every child of the node returns a value in [-1, 1]. *)
Lemma child_value m x mx alpha beta :
  b !! m = Some "" → x = a ∨ x = h →
  ∃ s mv, minimax fuel (<[m := x]> b) a h mx alpha beta = Ok (s, mv)
          ∧ -1 <= s <= 1.
Proof.
  intros Hm Hx. pose proof (none_full_in_progress b m Hlen Hno Hm) as Hr.
  assert (x ≠ "") as Hne by (by destruct Hx as [-> | ->]).
  destruct (minimax_value fuel (<[m := x]> b) a h mx alpha beta)
    as (s & mv & ? & ? & _); eauto.
  - apply node_ok_insert; [|done..]. split_and!; [done..|]. by left.
  - pose proof (count_empty_insert b m x Hm Hne). lia.
Qed.

(** A child in which the placed mark completes a line is won by that mark. *)
Lemma child_won m l mx alpha beta :
  b !! m = Some "" → l ∈ WINNING_LINES → line_full (<[m := a]> b) l a →
  minimax fuel (<[m := a]> b) a h mx alpha beta = Ok (1, None).
Proof.
  intros Hm Hl Hfull.
  assert (0 < count_empty b)%nat
    by (apply count_empty_pos; by eapply list_elem_of_lookup_2).
  destruct fuel as [|fuel']; [lia|].
  apply minimax_won. by eapply check_winner_completes.
Qed.

Lemma child_lost m l mx alpha beta :
  a ≠ h → b !! m = Some "" → l ∈ WINNING_LINES →
  line_full (<[m := h]> b) l h →
  minimax fuel (<[m := h]> b) a h mx alpha beta = Ok (-1, None).
Proof.
  intros Hne Hm Hl Hfull.
  assert (0 < count_empty b)%nat
    by (apply count_empty_pos; by eapply list_elem_of_lookup_2).
  destruct fuel as [|fuel']; [lia|].
  apply minimax_lost; [|done]. by eapply check_winner_completes.
Qed.
End AtNode.

(** With a line the AI can complete at [p], the search returns the value 1
    and a move that is an empty cell at or before [p]. *)
Lemma minimax_takes_win fuel b a h p l :
  length b = 9%nat → none_full b WINNING_LINES → a ≠ "" → h ≠ "" →
  (count_empty b < fuel)%nat →
  b !! p = Some "" → l ∈ WINNING_LINES → line_full (<[p := a]> b) l a →
  ∃ m, minimax fuel b a h true (-999) 999 = Ok (1, Some m)
       ∧ (m ≤ p)%nat ∧ b !! m = Some "".
Proof.
  intros Hlen Hno Ha Hh Hfuel Hp Hl Hfull.
  destruct fuel as [|fuel]; [lia|].
  rewrite (minimax_in_progress _ _ _ _ _ _ _ (none_full_in_progress b p Hlen Hno Hp)).
  destruct (max_loop_rule (stateless (minimax fuel)) a h b 999
              (λ rest v bm alpha _,
                 Forall (λ m, b !! m = Some "") rest ∧ StronglySorted lt rest ∧
                 alpha = Z.max (-999) v ∧
                 ((p ∈ rest ∧
                   ((v = -999 ∧ bm = None) ∨
                    (-1 <= v <= 1 ∧
                     ∃ m, bm = Some m ∧ (m < p)%nat ∧ b !! m = Some "")))
                  ∨ (v = 1 ∧ ∃ m, bm = Some m ∧ (m ≤ p)%nat ∧ b !! m = Some ""))))
    with (moves := available_moves b) (v := -999) (bm := @None nat)
         (alpha := -999) (s := tt)
    as (v' & bm' & [] & rest & alpha' & -> & (_ & _ & Halpha & Hst) & Hend & _).
  - intros m rest v bm alpha [] ([Hm Hrest]%Forall_cons & Hsort & -> & Hst).
    apply StronglySorted_inv in Hsort as [Hsort Hlt].
    destruct (decide (m = p)) as [->|Hne].
    + exists 1, None, tt. unfold stateless.
      rewrite (child_won b a h fuel Hlen Hno ltac:(lia) p l) by done.
      split; [done|].
      destruct (Z.gtb_spec 1 v); simpl; (split_and!; [done..|lia|]); right.
      * split; [done|]. by exists p.
      * destruct Hst as [[_ [[-> _]|[Hv Hbm]]]|[? ?]]; [lia| |done].
        assert (v = 1) as -> by lia. split; [done|].
        destruct Hbm as (m & -> & ? & ?). exists m. split_and!; [done|lia|done].
    + destruct (child_value b a h fuel Hlen Hno Ha Hh ltac:(lia) m a false
                  (Z.max (-999) v) 999 Hm ltac:(auto)) as (s & mv & Es & Hs).
      exists s, mv, tt. unfold stateless. rewrite Es. split; [done|].
      destruct Hst as [[Hpin Hv]|[-> Hbm]].
      * apply elem_of_cons in Hpin as [->|Hpin]; [done|].
        assert (m < p)%nat by (rewrite Forall_forall in Hlt; by apply Hlt).
        destruct (Z.gtb_spec s v); simpl; (split_and!; [done..|lia|]); left;
          (split; [done|]).
        -- right. split; [done|]. by exists m.
        -- destruct Hv as [[-> _]|Hv]; [lia|by right].
      * destruct (Z.gtb_spec s 1); [lia|]. simpl. split_and!; [done..|lia|].
        by right.
  - apply available_moves_empty.
  - split_and!; [apply available_moves_empty|apply available_moves_sorted|done|].
    left. split; [by apply elem_of_available_moves|by left].
  - destruct Hst as [[Hpin Hv]|[-> (m & -> & ? & ?)]]; [|by exists m].
    exfalso. destruct Hend as [->|Hbrk]; [by apply elem_of_nil in Hpin|].
    destruct Hv as [[-> _]|[? _]]; lia.
Qed.

(** A node of the opponent at which the opponent can complete a line at
    [p] returns -1, or a value no larger than [alpha] when it is pruned. *)
Lemma minimax_threatened fuel c a h p l alpha beta :
  length c = 9%nat → none_full c WINNING_LINES → a ≠ "" → h ≠ "" → a ≠ h →
  (count_empty c < fuel)%nat →
  c !! p = Some "" → l ∈ WINNING_LINES → line_full (<[p := h]> c) l h →
  alpha < beta →
  ∃ v bm, minimax fuel c a h false alpha beta = Ok (v, bm)
          ∧ -1 <= v ∧ v <= Z.max alpha (-1).
Proof.
  intros Hlen Hno Ha Hh Hne Hfuel Hp Hl Hfull Hwin.
  destruct fuel as [|fuel]; [lia|].
  rewrite (minimax_in_progress _ _ _ _ _ _ _ (none_full_in_progress c p Hlen Hno Hp)).
  destruct (min_loop_rule (stateless (minimax fuel)) a h c alpha
              (λ rest v bm beta' _,
                 Forall (λ m, c !! m = Some "") rest ∧
                 ((v = 999 ∧ beta' = beta) ∨
                  (-1 <= v <= 1 ∧ beta' = Z.min beta v)) ∧
                 (p ∈ rest ∨ v <= -1)))
    with (moves := available_moves c) (v := 999) (bm := @None nat)
         (beta := beta) (s := tt)
    as (v' & bm' & [] & rest & beta' & -> & (_ & Hv & Hpin) & Hend & _).
  - intros m rest v bm beta' [] ([Hm Hrest]%Forall_cons & Hv & Hpin).
    assert (∃ s mv, minimax fuel (<[m := h]> c) a h true alpha beta' = Ok (s, mv)
                    ∧ -1 <= s <= 1 ∧ (m = p → s = -1)) as (s & mv & Es & Hs & Hsp).
    { destruct (decide (m = p)) as [->|Hmp].
      - exists (-1), None.
        rewrite (child_lost c a h fuel Hlen Hno ltac:(lia) p l) by done.
        split_and!; (done || lia).
      - destruct (child_value c a h fuel Hlen Hno Ha Hh ltac:(lia) m h true
                    alpha beta' Hm ltac:(auto)) as (s & mv & Es & Hs).
        exists s, mv. split_and!; (done || lia). }
    exists s, mv, tt. unfold stateless. rewrite Es. split; [done|].
    assert (p ∈ rest ∨ s = -1 ∨ v <= -1) as Hpin'.
    { destruct Hpin as [[->|?]%elem_of_cons|?]; auto. }
    destruct (Z.ltb_spec s v); simpl; (split_and!; [done| |]).
    + right. split; [lia|]. destruct Hv as [[-> ->]|[_ ->]]; lia.
    + destruct Hpin' as [?|[?|?]]; [by left|right; lia..].
    + destruct Hv as [[-> _]|[? ->]]; [lia|]. right. split; [done|lia].
    + destruct Hpin' as [?|[?|?]]; [by left|right; lia..].
  - apply available_moves_empty.
  - split_and!; [apply available_moves_empty|by left|].
    left. by apply elem_of_available_moves.
  - exists v', bm'. split; [done|].
    destruct Hv as [[-> ->]|[Hv ->]].
    + exfalso. destruct Hend as [->|?]; [|lia].
      destruct Hpin as [?%elem_of_nil|?]; [done|lia].
    + split; [lia|]. destruct Hend as [->|?]; [|lia].
      destruct Hpin as [?%elem_of_nil|?]; [done|lia].
Qed.

(** When the AI cannot complete a line and the opponent can complete one at
    [p], the search returns either a value of at least 0 with the move [p],
    or the value -1 with the first empty cell. *)
Lemma minimax_blocks fuel b a h p l m0 tl :
  length b = 9%nat → none_full b WINNING_LINES → a ≠ "" → h ≠ "" → a ≠ h →
  (count_empty b < fuel)%nat →
  (∀ m l', b !! m = Some "" → l' ∈ WINNING_LINES →
           ¬ line_full (<[m := a]> b) l' a) →
  b !! p = Some "" → l ∈ WINNING_LINES → line_full (<[p := h]> b) l h →
  available_moves b = m0 :: tl →
  ∃ v m, minimax fuel b a h true (-999) 999 = Ok (v, Some m)
         ∧ ((v = -1 ∧ m = m0) ∨ (0 <= v <= 1 ∧ m = p)).
Proof.
  intros Hlen Hno Ha Hh Hne Hfuel Hcannot Hp Hl Hfull Hmoves.
  destruct fuel as [|fuel]; [lia|].
  rewrite (minimax_in_progress _ _ _ _ _ _ _ (none_full_in_progress b p Hlen Hno Hp)).
  destruct (max_loop_rule (stateless (minimax fuel)) a h b 999
              (λ rest v bm alpha _,
                 Forall (λ m, b !! m = Some "") rest ∧
                 alpha = Z.max (-999) v ∧
                 ((v = -999 ∧ bm = None ∧ rest = m0 :: tl)
                  ∨ (v = -1 ∧ bm = Some m0)
                  ∨ (0 <= v <= 1 ∧ bm = Some p))))
    with (moves := available_moves b) (v := -999) (bm := @None nat)
         (alpha := -999) (s := tt)
    as (v' & bm' & [] & rest & alpha' & -> & (_ & _ & Hst) & _ & Hshort).
  - intros m rest v bm alpha [] ([Hm Hrest]%Forall_cons & -> & Hst).
    assert (Z.max (-999) v < 999) as Hwin
      by (destruct Hst as [(-> & _)|[(-> & _)|(? & _)]]; lia).
    assert (∃ s mv, minimax fuel (<[m := a]> b) a h false (Z.max (-999) v) 999
                    = Ok (s, mv)
                    ∧ -1 <= s <= 1 ∧ (m ≠ p → s <= Z.max (Z.max (-999) v) (-1)))
      as (s & mv & Es & Hs & Hsp).
    { destruct (decide (m = p)) as [->|Hmp].
      - destruct (child_value b a h fuel Hlen Hno Ha Hh ltac:(lia) p a false
                    (Z.max (-999) v) 999 Hm ltac:(auto)) as (s & mv & Es & Hs).
        exists s, mv. split_and!; (done || lia).
      - destruct (minimax_threatened fuel (<[m := a]> b) a h p l
                    (Z.max (-999) v) 999) as (s & mv & Es & Hs1 & Hs2); try done.
        + by rewrite length_insert.
        + apply none_full_insert; [done..|]. intros l' Hl'. by apply Hcannot.
        + pose proof (count_empty_insert b m a Hm Ha). lia.
        + by rewrite list_lookup_insert_ne.
        + rewrite list_insert_insert_ne by done.
          apply line_full_insert_other; [|done].
          by rewrite list_lookup_insert_ne.
        + exists s, mv. split_and!; (done || lia). }
    exists s, mv, tt. unfold stateless. rewrite Es. split; [done|].
    destruct (decide (m = p)) as [->|Hmp].
    + destruct (Z.gtb_spec s v); simpl; (split_and!; [done|lia|]).
      * destruct (decide (s = -1)) as [->|?].
        -- right. left. split; [done|].
           destruct Hst as [(_ & _ & [= -> _])|[(-> & _)|(? & _)]]; [done|lia..].
        -- right. right. split; [lia|done].
      * destruct Hst as [(-> & _)|Hst]; [lia|by right].
    + specialize (Hsp Hmp).
      destruct (Z.gtb_spec s v); simpl; (split_and!; [done|lia|]).
      * destruct Hst as [(-> & _ & [= -> _])|[(-> & _)|(? & _)]]; [|lia..].
        right. left. split; [lia|done].
      * destruct Hst as [(-> & _)|Hst]; [lia|by right].
  - apply available_moves_empty.
  - split_and!; [apply available_moves_empty|done|]. left. by rewrite Hmoves.
  - destruct Hst as [(_ & _ & ->)|[(-> & ->)|(? & ->)]].
    + exfalso. rewrite Hmoves in Hshort. destruct Hshort as [[[=] _]|?]. lia.
    + exists (-1), m0. split; [done|by left].
    + exists v', p. split; [done|by right].
Qed.

Lemma win_board_none_full a h : none_full (win_board a h) WINNING_LINES.
Proof.
  intros l y Hl (H1 & H2 & H3 & Hy). unfold WINNING_LINES in Hl.
  repeat (apply elem_of_cons in Hl as [->|Hl]); simpl in *;
    try congruence. by apply elem_of_nil in Hl.
Qed.

Lemma win_board_count a h :
  a ≠ "" → h ≠ "" → count_empty (win_board a h) = 5%nat.
Proof.
  intros Ha%eqb_false_iff Hh%eqb_false_iff.
  unfold count_empty, available_moves, win_board. cbn [available_from].
  by rewrite Ha, Hh.
Qed.

Lemma threat_board_XO :
  minimax 7 (threat_board "X" "O") "X" "O" true (-999) 999 = Ok (-1, Some 0%nat).
Proof. vm_compute. reflexivity. Qed.

Lemma threat_board_rename a h :
  rename "X" "O" a h <$> threat_board "X" "O" = threat_board a h.
Proof. reflexivity. Qed.

Lemma threat_board_over_marks a h : over_marks (threat_board a h) a h.
Proof.
  unfold over_marks, threat_board.
  repeat first [apply Forall_nil_2|apply Forall_cons_2]; auto.
Qed.

(** ** Every cache the program can reach has right entries *)

Lemma stateless_mono fuel fuel' :
  (fuel ≤ fuel')%nat →
  ∀ b ai hu mx alpha beta (s1 s2 : unit) r s1',
    True → stateless (minimax fuel) b ai hu mx alpha beta s1 = (Ok r, s1') →
    ∃ s2', stateless (minimax fuel') b ai hu mx alpha beta s2 = (Ok r, s2') ∧ True.
Proof.
  intros Hle b ai hu mx alpha beta [] [] r s1' _. unfold stateless.
  intros [= H <-]. exists tt. split; [|done]. f_equal. by eapply minimax_mono.
Qed.

Section Soundness.
Context (rec : list string → string → string → bool → Z → Z → cache →
               res (Z * option nat) * cache).
Hypothesis Hrec : ∀ b ai hu mx alpha beta c x c',
  cache_ok c → rec b ai hu mx alpha beta c = (x, c') →
  cache_ok c' ∧ ∀ r, x = Ok r → ∃ fuel, minimax fuel b ai hu mx alpha beta = Ok r.

Lemma max_loop_sound ai hu moves : ∀ b v bm alpha beta c x c',
  cache_ok c → max_loop rec ai hu b moves v bm alpha beta c = (x, c') →
  cache_ok c' ∧
  ∀ r, x = Ok r →
       ∃ fuel, max_loop (stateless (minimax fuel)) ai hu b moves v bm alpha beta tt
               = (Ok r, tt).
Proof.
  induction moves as [|m moves IH]; intros b v bm alpha beta c x c' Hc; simpl.
  - intros [= <- <-]. split; [done|]. intros r [= <-]. by exists 0%nat.
  - destruct (rec _ ai hu false alpha beta c) as [[[score mv]|e] c1] eqn:E1.
    2:{ intros [= <- <-]. split; [|done]. by eapply Hrec. }
    destruct (Hrec _ _ _ _ _ _ _ _ _ Hc E1) as [Hc1 Hpure].
    destruct (Hpure _ eq_refl) as (f1 & Hf1).
    destruct (score >? v) eqn:Hgt.
    + destruct (Z.max alpha score >=? beta) eqn:Hbrk.
      * intros [= <- <-]. split; [done|]. intros r [= <-]. exists f1.
        unfold stateless. by rewrite Hf1, Hgt, Hbrk.
      * intros [Hc' Hloop]%IH; [|done]. split; [done|].
        intros r Hr. destruct (Hloop r Hr) as (f2 & Hf2).
        exists (f1 `max` f2)%nat. unfold stateless at 1.
        rewrite (minimax_mono f1 (f1 `max` f2)%nat _ _ _ _ _ _ _ ltac:(lia) Hf1).
        rewrite Hgt, Hbrk.
        destruct (max_loop_sim _ _ _ (stateless_mono f2 (f1 `max` f2)%nat ltac:(lia))
                       _ _ _ _ _ _ _ _ tt tt _ _ I Hf2) as ([] & Hres & _).
        exact Hres.
    + destruct (Z.max alpha v >=? beta) eqn:Hbrk.
      * intros [= <- <-]. split; [done|]. intros r [= <-]. exists f1.
        unfold stateless. by rewrite Hf1, Hgt, Hbrk.
      * intros [Hc' Hloop]%IH; [|done]. split; [done|].
        intros r Hr. destruct (Hloop r Hr) as (f2 & Hf2).
        exists (f1 `max` f2)%nat. unfold stateless at 1.
        rewrite (minimax_mono f1 (f1 `max` f2)%nat _ _ _ _ _ _ _ ltac:(lia) Hf1).
        rewrite Hgt, Hbrk.
        destruct (max_loop_sim _ _ _ (stateless_mono f2 (f1 `max` f2)%nat ltac:(lia))
                       _ _ _ _ _ _ _ _ tt tt _ _ I Hf2) as ([] & Hres & _).
        exact Hres.
Qed.

Lemma min_loop_sound ai hu moves : ∀ b v bm alpha beta c x c',
  cache_ok c → min_loop rec ai hu b moves v bm alpha beta c = (x, c') →
  cache_ok c' ∧
  ∀ r, x = Ok r →
       ∃ fuel, min_loop (stateless (minimax fuel)) ai hu b moves v bm alpha beta tt
               = (Ok r, tt).
Proof.
  induction moves as [|m moves IH]; intros b v bm alpha beta c x c' Hc; simpl.
  - intros [= <- <-]. split; [done|]. intros r [= <-]. by exists 0%nat.
  - destruct (rec _ ai hu true alpha beta c) as [[[score mv]|e] c1] eqn:E1.
    2:{ intros [= <- <-]. split; [|done]. by eapply Hrec. }
    destruct (Hrec _ _ _ _ _ _ _ _ _ Hc E1) as [Hc1 Hpure].
    destruct (Hpure _ eq_refl) as (f1 & Hf1).
    destruct (score <? v) eqn:Hgt.
    + destruct (alpha >=? Z.min beta score) eqn:Hbrk.
      * intros [= <- <-]. split; [done|]. intros r [= <-]. exists f1.
        unfold stateless. by rewrite Hf1, Hgt, Hbrk.
      * intros [Hc' Hloop]%IH; [|done]. split; [done|].
        intros r Hr. destruct (Hloop r Hr) as (f2 & Hf2).
        exists (f1 `max` f2)%nat. unfold stateless at 1.
        rewrite (minimax_mono f1 (f1 `max` f2)%nat _ _ _ _ _ _ _ ltac:(lia) Hf1).
        rewrite Hgt, Hbrk.
        destruct (min_loop_sim _ _ _ (stateless_mono f2 (f1 `max` f2)%nat ltac:(lia))
                       _ _ _ _ _ _ _ _ tt tt _ _ I Hf2) as ([] & Hres & _).
        exact Hres.
    + destruct (alpha >=? Z.min beta v) eqn:Hbrk.
      * intros [= <- <-]. split; [done|]. intros r [= <-]. exists f1.
        unfold stateless. by rewrite Hf1, Hgt, Hbrk.
      * intros [Hc' Hloop]%IH; [|done]. split; [done|].
        intros r Hr. destruct (Hloop r Hr) as (f2 & Hf2).
        exists (f1 `max` f2)%nat. unfold stateless at 1.
        rewrite (minimax_mono f1 (f1 `max` f2)%nat _ _ _ _ _ _ _ ltac:(lia) Hf1).
        rewrite Hgt, Hbrk.
        destruct (min_loop_sim _ _ _ (stateless_mono f2 (f1 `max` f2)%nat ltac:(lia))
                       _ _ _ _ _ _ _ _ tt tt _ _ I Hf2) as ([] & Hres & _).
        exact Hres.
Qed.

Lemma minimax_body_sound b ai hu mx alpha beta c x c' :
  cache_ok c → minimax_body rec b ai hu mx alpha beta c = (x, c') →
  cache_ok c' ∧
  ∀ r, x = Ok r → ∃ fuel, minimax (S fuel) b ai hu mx alpha beta = Ok r.
Proof.
  intros Hc. unfold minimax_body at 1.
  assert (∀ fuel, minimax (S fuel) b ai hu mx alpha beta
                  = (minimax_body (stateless (minimax fuel)) b ai hu mx alpha beta tt).1)
    as Hunfold by done.
  unfold minimax_body in Hunfold.
  destruct (check_winner b) as [result|e]; [|intros [= <- <-]; by split].
  destruct (result_is result ai).
  { intros [= <- <-]. split; [done|]. intros r [= <-]. exists 0%nat. by rewrite Hunfold. }
  destruct (result_is result hu).
  { intros [= <- <-]. split; [done|]. intros r [= <-]. exists 0%nat. by rewrite Hunfold. }
  destruct (result_is result "Draw").
  { intros [= <- <-]. split; [done|]. intros r [= <-]. exists 0%nat. by rewrite Hunfold. }
  destruct mx.
  - destruct (max_loop rec _ _ _ _ _ _ _ _ c) as [[[[v bm] b']|e] c1] eqn:E;
      apply max_loop_sound in E as [Hc1 Hloop]; try done;
      intros [= <- <-]; (split; [done|]); [|done].
    intros r [= <-]. destruct (Hloop _ eq_refl) as (fuel & Hf).
    exists fuel. by rewrite Hunfold, Hf.
  - destruct (min_loop rec _ _ _ _ _ _ _ _ c) as [[[[v bm] b']|e] c1] eqn:E;
      apply min_loop_sound in E as [Hc1 Hloop]; try done;
      intros [= <- <-]; (split; [done|]); [|done].
    intros r [= <-]. destruct (Hloop _ eq_refl) as (fuel & Hf).
    exists fuel. by rewrite Hunfold, Hf.
Qed.
End Soundness.

(** Whatever a call of the decorated function returns, or if it raises, it
    leaves a cache whose entries are right, and a value it returns is a
    value of the undecorated function. *)
Lemma minimax_cached_sound fuel : ∀ b ai hu mx alpha beta c x c',
  cache_ok c → minimax_cached fuel b ai hu mx alpha beta c = (x, c') →
  cache_ok c' ∧ ∀ r, x = Ok r → ∃ fuel', minimax fuel' b ai hu mx alpha beta = Ok r.
Proof.
  induction fuel as [|fuel IH]; intros b ai hu mx alpha beta c x c' Hc.
  - simpl. destruct (c !! _) as [r0|] eqn:Hhit; intros [= <- <-]; (split; [done|]);
      [|done].
    intros r [= <-]. by eapply Hc.
  - rewrite minimax_cached_S.
    destruct (c !! _) as [r0|] eqn:Hhit.
    { intros [= <- <-]. split; [done|]. intros r [= <-]. by eapply Hc. }
    destruct (minimax_body _ _ _ _ _ _ _ c) as [[r1|e] c1] eqn:E;
      apply (minimax_body_sound _ IH) in E as [Hc1 Hpure]; try done;
      intros [= <- <-].
    + destruct (Hpure _ eq_refl) as (fuel' & Hf). split; [|intros r [= <-]; eauto].
      by eapply cache_ok_insert.
    + by split.
Qed.

Lemma ai_move_cache_ok fuel a h w :
  cache_ok (lru w) → cache_ok (lru (ai_move fuel a h w).2).
Proof.
  intros Hc. unfold ai_move.
  destruct (minimax_cached _ _ _ _ _ _ _ _) as [[[v mv]|e] c'] eqn:E;
    by apply minimax_cached_sound in E as [Hc' _].
Qed.

Lemma cache_clear_ok w : cache_ok (lru (cache_clear w)).
Proof. apply cache_ok_empty. Qed.

(** ** Pruning does not change the value *)

Section OpenWindowRules.
Context {St : Type}.
Context (rec : list string → string → string → bool → Z → Z → St →
               res (Z * option nat) * St).
Context (ai hu : string) (b : list string) (beta0 alpha0 : Z).

(** The rule of the maximizing loop for a window that is open at entry: an
    iteration starts only while [alpha < beta], so the invariant needs to be
    kept under that condition only. *)
Lemma max_loop_rule_open (I : list nat → Z → option nat → Z → St → Prop) :
  (∀ m rest v bm alpha s,
     I (m :: rest) v bm alpha s → alpha < beta0 →
     ∃ score mv s1,
       rec (<[m := ai]> b) ai hu false alpha beta0 s = (Ok (score, mv), s1) ∧
       let vb := if score >? v then (score, Some m) else (v, bm) in
       I rest vb.1 vb.2 (Z.max alpha vb.1) s1) →
  ∀ moves v bm alpha s,
    Forall (λ m, b !! m = Some "") moves → alpha < beta0 →
    I moves v bm alpha s →
    ∃ v' bm' s' rest alpha',
      max_loop rec ai hu b moves v bm alpha beta0 s = (Ok (v', bm', b), s') ∧
      I rest v' bm' alpha' s' ∧ (rest = [] ∨ alpha' >= beta0).
Proof.
  intros Hstep moves. induction moves as [|m moves IH];
    intros v bm alpha s Hempty Hopen HI; simpl.
  - exists v, bm, s, [], alpha. split_and!; auto.
  - apply Forall_cons in Hempty as [Hm Hempty].
    destruct (Hstep _ _ _ _ _ _ HI Hopen) as (score & mv & s1 & -> & HI').
    rewrite (insert_undo b m ai Hm).
    destruct (score >? v); simpl in HI'.
    + destruct (Z.geb_spec (Z.max alpha score) beta0).
      * exists score, (Some m), s1, moves, (Z.max alpha score).
        split_and!; [done..|right; lia].
      * apply IH; [done|lia|done].
    + destruct (Z.geb_spec (Z.max alpha v) beta0).
      * exists v, bm, s1, moves, (Z.max alpha v).
        split_and!; [done..|right; lia].
      * apply IH; [done|lia|done].
Qed.

Lemma min_loop_rule_open (I : list nat → Z → option nat → Z → St → Prop) :
  (∀ m rest v bm beta s,
     I (m :: rest) v bm beta s → alpha0 < beta →
     ∃ score mv s1,
       rec (<[m := hu]> b) ai hu true alpha0 beta s = (Ok (score, mv), s1) ∧
       let vb := if score <? v then (score, Some m) else (v, bm) in
       I rest vb.1 vb.2 (Z.min beta vb.1) s1) →
  ∀ moves v bm beta s,
    Forall (λ m, b !! m = Some "") moves → alpha0 < beta →
    I moves v bm beta s →
    ∃ v' bm' s' rest beta',
      min_loop rec ai hu b moves v bm alpha0 beta s = (Ok (v', bm', b), s') ∧
      I rest v' bm' beta' s' ∧ (rest = [] ∨ alpha0 >= beta').
Proof.
  intros Hstep moves. induction moves as [|m moves IH];
    intros v bm beta s Hempty Hopen HI; simpl.
  - exists v, bm, s, [], beta. split_and!; auto.
  - apply Forall_cons in Hempty as [Hm Hempty].
    destruct (Hstep _ _ _ _ _ _ HI Hopen) as (score & mv & s1 & -> & HI').
    rewrite (insert_undo b m hu Hm).
    destruct (score <? v); simpl in HI'.
    + destruct (Z.geb_spec alpha0 (Z.min beta score)).
      * exists score, (Some m), s1, moves, (Z.min beta score).
        split_and!; [done..|right; lia].
      * apply IH; [done|lia|done].
    + destruct (Z.geb_spec alpha0 (Z.min beta v)).
      * exists v, bm, s1, moves, (Z.min beta v).
        split_and!; [done..|right; lia].
      * apply IH; [done|lia|done].
Qed.
End OpenWindowRules.

(** Largest and smallest of the values [t m] over a list of moves, from a
    sentinel. *)
Lemma foldr_max_snoc (t : nat → Z) a l m :
  foldr (λ m acc, Z.max (t m) acc) a (l ++ [m])
  = Z.max (foldr (λ m acc, Z.max (t m) acc) a l) (t m).
Proof. induction l as [|x l IH]; simpl; [lia|]. rewrite IH. lia. Qed.

Lemma foldr_max_ge (t : nat → Z) a l m :
  m ∈ l → t m <= foldr (λ m acc, Z.max (t m) acc) a l.
Proof.
  induction l as [|x l IH]; [by intros ?%elem_of_nil|].
  intros [->|Hm]%elem_of_cons; simpl; [lia|]. specialize (IH Hm). lia.
Qed.

Lemma foldr_min_snoc (t : nat → Z) a l m :
  foldr (λ m acc, Z.min (t m) acc) a (l ++ [m])
  = Z.min (foldr (λ m acc, Z.min (t m) acc) a l) (t m).
Proof. induction l as [|x l IH]; simpl; [lia|]. rewrite IH. lia. Qed.

Lemma foldr_min_le (t : nat → Z) a l m :
  m ∈ l → foldr (λ m acc, Z.min (t m) acc) a l <= t m.
Proof.
  induction l as [|x l IH]; [by intros ?%elem_of_nil|].
  intros [->|Hm]%elem_of_cons; simpl; [lia|]. specialize (IH Hm). lia.
Qed.

Lemma plain_minimax_in_progress fuel b ai hu mx :
  check_winner b = Ok None →
  plain_minimax (S fuel) b ai hu mx =
  if mx then
    foldr (λ m acc, Z.max (plain_minimax fuel (<[m := ai]> b) ai hu false) acc)
          (-999) (available_moves b)
  else
    foldr (λ m acc, Z.min (plain_minimax fuel (<[m := hu]> b) ai hu true) acc)
          999 (available_moves b).
Proof. intros Hr. simpl. by rewrite Hr. Qed.

Lemma plain_minimax_terminal fuel b ai hu mx alpha beta x :
  check_winner b = Ok (Some x) → x = ai ∨ x = hu ∨ x = "Draw" →
  minimax (S fuel) b ai hu mx alpha beta
  = Ok (plain_minimax (S fuel) b ai hu mx, None).
Proof.
  intros Hr Hx. rewrite minimax_S. unfold minimax_body. simpl. rewrite Hr. simpl.
  destruct (String.eqb x ai) eqn:E1; [done|].
  destruct (String.eqb x hu) eqn:E2; [done|].
  destruct (String.eqb x "Draw") eqn:E3; [done|].
  apply eqb_false_iff in E1, E2, E3. by destruct Hx as [?|[?|?]].
Qed.

Lemma alpha_beta_terminal n b ai hu mx alpha beta x :
  check_winner b = Ok (Some x) → x = ai ∨ x = hu ∨ x = "Draw" →
  ∃ v bm, minimax (S n) b ai hu mx alpha beta = Ok (v, bm) ∧ -1 <= v <= 1 ∧
    window_bounds alpha beta v (plain_minimax (S n) b ai hu mx) ∧
    (alpha < v < beta → check_winner b = Ok None →
     ∃ m, bm = Some m ∧ b !! m = Some "" ∧
          plain_minimax n (<[m := if mx then ai else hu]> b) ai hu (negb mx) = v).
Proof.
  intros Hx Hcases.
  destruct (minimax_terminal n b ai hu mx alpha beta x Hx Hcases)
    as (v & Hv & Hrange).
  pose proof (plain_minimax_terminal n b ai hu mx alpha beta x Hx Hcases) as Ht.
  assert (plain_minimax (S n) b ai hu mx = v) as -> by congruence.
  exists v, None. split_and!; [done|lia..| |].
  - unfold window_bounds. split_and!; intros; lia.
  - intros _ Hr'. rewrite Hx in Hr'. discriminate.
Qed.

Lemma alpha_beta_bounds n : ∀ b ai hu mx alpha beta,
  node_ok b ai hu → count_empty b = n → alpha < beta →
  ∃ v bm, minimax (S n) b ai hu mx alpha beta = Ok (v, bm) ∧ -1 <= v <= 1 ∧
    window_bounds alpha beta v (plain_minimax (S n) b ai hu mx) ∧
    (alpha < v < beta → check_winner b = Ok None →
     ∃ m, bm = Some m ∧ b !! m = Some "" ∧
          plain_minimax n (<[m := if mx then ai else hu]> b) ai hu (negb mx) = v).
Proof.
  induction n as [|n IH]; intros b ai hu mx alpha beta Hok Hn Hwin;
    pose proof Hok as (Hlen & Hai & Hhu & [Hr|Hr]).
  1,3: (destruct (check_winner_None b Hlen Hr) as [_ Hempty];
        apply count_empty_pos in Hempty).
  1: lia.
  2,3: (assert (∃ x, check_winner b = Ok (Some x) ∧ (x = ai ∨ x = hu ∨ x = "Draw"))
          as (x & Hx & Hcases) by (destruct Hr as [?|[?|?]]; eauto 6);
        by eapply alpha_beta_terminal).
  assert (∀ m x, b !! m = Some "" → x = ai ∨ x = hu →
            node_ok (<[m := x]> b) ai hu ∧ count_empty (<[m := x]> b) = n) as Hchild.
  { intros m x Hm Hx. split; [by apply node_ok_insert|].
    assert (x ≠ "") as Hne by (by destruct Hx as [-> | ->]).
    pose proof (count_empty_insert b m x Hm Hne). lia. }
  rewrite (minimax_in_progress _ _ _ _ _ _ _ Hr).
  rewrite (plain_minimax_in_progress _ _ _ _ _ Hr).
  destruct mx.
  - set (t := λ m, plain_minimax (S n) (<[m := ai]> b) ai hu false).
    set (M := foldr (λ m acc, Z.max (t m) acc) (-999)).
    destruct (max_loop_rule_open (stateless (minimax (S n))) ai hu b beta
                (λ rest v bm alpha' _,
                   ∃ done, available_moves b = done ++ rest ∧
                     ((v = -999 ∧ alpha' = alpha ∧ done = [])
                      ∨ (-1 <= v <= 1 ∧ alpha' = Z.max alpha v ∧
                         (v <= alpha → M done <= v) ∧
                         (beta <= v → ∃ m, m ∈ done ∧ v <= t m) ∧
                         (alpha < v < beta →
                            M done = v ∧
                            ∃ m, bm = Some m ∧ b !! m = Some "" ∧ t m = v)))))
      with (moves := available_moves b) (v := -999) (bm := @None nat)
           (alpha := alpha) (s := tt)
      as (v' & bm' & [] & rest & alpha' & -> & (done & Hsplit & Hst) & Hend).
    + intros m rest v bm a [] (done & Hsplit & Hst) Hopen.
      assert (b !! m = Some "") as Hm.
      { apply elem_of_available_moves. rewrite Hsplit.
        apply elem_of_app. right. apply elem_of_cons. by left. }
      destruct (Hchild m ai Hm ltac:(auto)) as [Hok' Hn'].
      destruct (IH (<[m := ai]> b) ai hu false a beta Hok' Hn' Hopen)
        as (s & mv & Es & Hs & (B1 & B2 & B3) & _).
      fold (t m) in B1, B2, B3.
      exists s, mv, tt. unfold stateless. rewrite Es. split; [done|].
      exists (done ++ [m]). split; [by rewrite <- app_assoc|]. right.
      unfold M. rewrite foldr_max_snoc. fold M.
      destruct Hst as [(-> & -> & ->)|(Hv & -> & I1 & I2 & I3)].
      * destruct (Z.gtb_spec s (-999)); [|lia]. simpl.
        split_and!; [lia..| | |].
        -- intros ?. specialize (B1 ltac:(lia)). unfold M. simpl. lia.
        -- intros ?. exists m.
           split; [first [apply elem_of_cons; by left
                         |apply elem_of_app; right; apply elem_of_cons; by left]|]. apply B2. lia.
        -- intros ?. specialize (B3 ltac:(lia)). unfold M. simpl.
           split; [lia|]. exists m. by split_and!.
      * destruct (Z.gtb_spec s v); simpl.
        -- split_and!; [lia..| | |].
           ++ intros ?. specialize (B1 ltac:(lia)). specialize (I1 ltac:(lia)). lia.
           ++ intros ?. exists m.
           split; [first [apply elem_of_cons; by left
                         |apply elem_of_app; right; apply elem_of_cons; by left]|]. apply B2. lia.
           ++ intros ?.
              assert (Z.max alpha v < s) as Hin.
              { destruct (decide (s <= Z.max alpha v)); [|lia]. lia. }
              specialize (B3 ltac:(lia)). split.
              ** destruct (decide (v <= alpha)).
                 --- specialize (I1 ltac:(lia)). lia.
                 --- destruct (I3 ltac:(lia)) as [? _]. lia.
              ** exists m. by split_and!.
        -- split_and!; [lia..| | |].
           ++ intros ?. specialize (B1 ltac:(lia)). specialize (I1 ltac:(lia)). lia.
           ++ intros ?. lia.
           ++ intros ?. destruct (I3 ltac:(lia)) as [HM Hbest].
              specialize (B1 ltac:(lia)). split; [lia|done].
    + apply available_moves_empty.
    + done.
    + exists []. split; [done|]. by left.
    + destruct Hst as [(-> & -> & ->)|(Hv & -> & I1 & I2 & I3)].
      { exfalso. destruct Hend as [->|?]; [|lia]. simpl in Hsplit.
        unfold count_empty in Hempty. rewrite Hsplit in Hempty. simpl in Hempty. lia. }
      exists v', bm'. split_and!; [done|lia..| |].
      * assert (∀ m, m ∈ done → t m <= M (available_moves b)) as Hge.
        { intros m Hm. apply foldr_max_ge. rewrite Hsplit. apply elem_of_app. by left. }
        unfold window_bounds. fold M.
        destruct Hend as [->|Hbrk].
        -- rewrite app_nil_r in Hsplit. rewrite Hsplit. split_and!.
           ++ done.
           ++ intros Hb. destruct (I2 Hb) as (m & Hm & Hle).
              specialize (Hge m Hm). rewrite Hsplit in Hge.
              etrans; [exact Hle|exact Hge].
           ++ intros Hin. by destruct (I3 Hin).
        -- split_and!; [lia| |lia].
           intros Hb. destruct (I2 Hb) as (m & Hm & Hle).
           specialize (Hge m Hm). etrans; [exact Hle|exact Hge].
      * intros Hin _. by destruct (I3 Hin) as [_ ?].
  - set (t := λ m, plain_minimax (S n) (<[m := hu]> b) ai hu true).
    set (M := foldr (λ m acc, Z.min (t m) acc) 999).
    destruct (min_loop_rule_open (stateless (minimax (S n))) ai hu b alpha
                (λ rest v bm beta' _,
                   ∃ done, available_moves b = done ++ rest ∧
                     ((v = 999 ∧ beta' = beta ∧ done = [])
                      ∨ (-1 <= v <= 1 ∧ beta' = Z.min beta v ∧
                         (beta <= v → v <= M done) ∧
                         (v <= alpha → ∃ m, m ∈ done ∧ t m <= v) ∧
                         (alpha < v < beta →
                            M done = v ∧
                            ∃ m, bm = Some m ∧ b !! m = Some "" ∧ t m = v)))))
      with (moves := available_moves b) (v := 999) (bm := @None nat)
           (beta := beta) (s := tt)
      as (v' & bm' & [] & rest & beta' & -> & (done & Hsplit & Hst) & Hend).
    + intros m rest v bm a [] (done & Hsplit & Hst) Hopen.
      assert (b !! m = Some "") as Hm.
      { apply elem_of_available_moves. rewrite Hsplit.
        apply elem_of_app. right. apply elem_of_cons. by left. }
      destruct (Hchild m hu Hm ltac:(auto)) as [Hok' Hn'].
      destruct (IH (<[m := hu]> b) ai hu true alpha a Hok' Hn' Hopen)
        as (s & mv & Es & Hs & (B1 & B2 & B3) & _).
      fold (t m) in B1, B2, B3.
      exists s, mv, tt. unfold stateless. rewrite Es. split; [done|].
      exists (done ++ [m]). split; [by rewrite <- app_assoc|]. right.
      unfold M. rewrite foldr_min_snoc. fold M.
      destruct Hst as [(-> & -> & ->)|(Hv & -> & I1 & I2 & I3)].
      * destruct (Z.ltb_spec s 999); [|lia]. simpl.
        split_and!; [lia..| | |].
        -- intros ?. specialize (B2 ltac:(lia)). unfold M. simpl. lia.
        -- intros ?. exists m.
           split; [first [apply elem_of_cons; by left
                         |apply elem_of_app; right; apply elem_of_cons; by left]|]. apply B1. lia.
        -- intros ?. specialize (B3 ltac:(lia)). unfold M. simpl.
           split; [lia|]. exists m. by split_and!.
      * destruct (Z.ltb_spec s v); simpl.
        -- split_and!; [lia..| | |].
           ++ intros ?. specialize (B2 ltac:(lia)). specialize (I1 ltac:(lia)). lia.
           ++ intros ?. exists m.
           split; [first [apply elem_of_cons; by left
                         |apply elem_of_app; right; apply elem_of_cons; by left]|]. apply B1. lia.
           ++ intros ?. specialize (B3 ltac:(lia)). split.
              ** destruct (decide (beta <= v)).
                 --- specialize (I1 ltac:(lia)). lia.
                 --- destruct (I3 ltac:(lia)) as [? _]. lia.
              ** exists m. by split_and!.
        -- split_and!; [lia..| | |].
           ++ intros ?. specialize (B2 ltac:(lia)). specialize (I1 ltac:(lia)). lia.
           ++ intros ?. lia.
           ++ intros ?. destruct (I3 ltac:(lia)) as [HM Hbest].
              specialize (B2 ltac:(lia)). split; [lia|done].
    + apply available_moves_empty.
    + done.
    + exists []. split; [done|]. by left.
    + destruct Hst as [(-> & -> & ->)|(Hv & -> & I1 & I2 & I3)].
      { exfalso. destruct Hend as [->|?]; [|lia]. simpl in Hsplit.
        unfold count_empty in Hempty. rewrite Hsplit in Hempty. simpl in Hempty. lia. }
      exists v', bm'. split_and!; [done|lia..| |].
      * assert (∀ m, m ∈ done → M (available_moves b) <= t m) as Hge.
        { intros m Hm. apply foldr_min_le. rewrite Hsplit. apply elem_of_app. by left. }
        unfold window_bounds. fold M.
        destruct Hend as [->|Hbrk].
        -- rewrite app_nil_r in Hsplit. rewrite Hsplit. split_and!.
           ++ intros Hb. destruct (I2 Hb) as (m & Hm & Hle).
              specialize (Hge m Hm). rewrite Hsplit in Hge.
              etrans; [exact Hge|exact Hle].
           ++ done.
           ++ intros Hin. by destruct (I3 Hin).
        -- split_and!; [|lia|lia].
           intros Hb. destruct (I2 Hb) as (m & Hm & Hle).
           specialize (Hge m Hm). etrans; [exact Hge|exact Hle].
      * intros Hin _. by destruct (I3 Hin) as [_ ?].
Qed.

(** ** The console *)

Lemma position_in_spec pos moves :
  position_in pos moves = true ↔ 0 <= pos ∧ Z.to_nat pos ∈ moves.
Proof.
  unfold position_in. rewrite existsb_exists. split.
  - intros (m & Hm%list_elem_of_In & Heq%Z.eqb_eq). subst pos.
    split; [lia|]. by rewrite Nat2Z.id.
  - intros [Hpos Hm]. exists (Z.to_nat pos). split; [by apply list_elem_of_In|].
    apply Z.eqb_eq. lia.
Qed.

(** What [read_move] has read when it ends, for each way it can end. *)
Lemma read_move_spec moves stdin :
  ∀ o r rest, read_move moves stdin = (o, r, rest) →
  match r with
  | Returned m =>
      m ∈ moves ∧
      ∃ skipped, stdin = skipped ++ Number (Z.of_nat m + 1) :: rest
                 ∧ Forall (rejected moves) skipped
  | Halted SystemExit =>
      ∃ skipped, stdin = skipped ++ Quit :: rest ∧ Forall (rejected moves) skipped
  | Halted EOFError => rest = [] ∧ Forall (rejected moves) stdin
  | Halted _ => False
  end.
Proof.
  induction stdin as [|l stdin IH]; intros o r rest; simpl.
  - intros [= <- <- <-]. by split.
  - destruct l as [|z|].
    + intros [= <- <- <-]. exists []. by split.
    + destruct (position_in (z - 1) moves) eqn:Hin; simpl.
      * intros [= <- <- <-]. apply position_in_spec in Hin as [Hpos Hin].
        split; [done|]. exists []. split; [|done]. simpl. do 2 f_equal. lia.
      * destruct (read_move moves stdin) as [[o' r'] rest'] eqn:E.
        intros [= <- <- <-]. specialize (IH _ _ _ eq_refl).
        assert (rejected moves (Number z)) as Hrej.
        { right. exists z. split; [done|]. intros [Hz Hm].
          assert (position_in (z - 1) moves = true) as Hin'
            by (apply position_in_spec; split; [lia|done]).
          congruence. }
        destruct r' as [m|[| | |]]; try done.
        -- destruct IH as (Hm & skipped & -> & Hsk). split; [done|].
           exists (Number z :: skipped). split; [done|]. by constructor.
        -- destruct IH as (skipped & -> & Hsk).
           exists (Number z :: skipped). split; [done|]. by constructor.
        -- destruct IH as (-> & Hsk). split; [done|]. by constructor.
    + destruct (read_move moves stdin) as [[o' r'] rest'] eqn:E.
      intros [= <- <- <-]. specialize (IH _ _ _ eq_refl).
      assert (rejected moves NotNumber) as Hrej by (by left).
      destruct r' as [m|[| | |]]; try done.
      * destruct IH as (Hm & skipped & -> & Hsk). split; [done|].
        exists (NotNumber :: skipped). split; [done|]. by constructor.
      * destruct IH as (skipped & -> & Hsk).
        exists (NotNumber :: skipped). split; [done|]. by constructor.
      * destruct IH as (-> & Hsk). split; [done|]. by constructor.
Qed.

Lemma display_row_ok (chars : list string) i j k :
  (i < length chars)%nat → (j < length chars)%nat → (k < length chars)%nat →
  ∃ x y z, chars !! i = Some x ∧ chars !! j = Some y ∧ chars !! k = Some z ∧
           display_row chars i j k
           = Ok (" " +:+ x +:+ " | " +:+ y +:+ " | " +:+ z +:+ " ").
Proof.
  intros Hi Hj Hk.
  destruct (getitem_lt chars i Hi) as (x & Ex & Lx).
  destruct (getitem_lt chars j Hj) as (y & Ey & Ly).
  destruct (getitem_lt chars k Hk) as (z & Ez & Lz).
  exists x, y, z. unfold display_row. rewrite Ex, Ey, Ez. by split_and!.
Qed.

Lemma display_ok b :
  (9 ≤ length b)%nat → ∃ o, display b = (o, Ok tt) ∧ length o = 7%nat.
Proof.
  intros Hlen. unfold display.
  set (chars := (λ c, if negb (String.eqb c "") then c else " ") <$> b).
  assert (9 ≤ length chars)%nat as Hc by (unfold chars; by rewrite length_fmap).
  destruct (display_row_ok chars 0 1 2) as (? & ? & ? & _ & _ & _ & ->); [lia..|].
  destruct (display_row_ok chars 3 4 5) as (? & ? & ? & _ & _ & _ & ->); [lia..|].
  destruct (display_row_ok chars 6 7 8) as (? & ? & ? & _ & _ & _ & ->); [lia..|].
  eexists. by split.
Qed.



(** ** The value of the position along a game *)

(** On a board in progress the move of [ai_move] leads to a position whose
    value, with the opponent to move, is the value of the board. *)
Lemma ai_move_keeps_value fuel b ai hu c :
  node_ok b ai hu → check_winner b = Ok None → cache_ok c →
  (count_empty b < fuel)%nat →
  ∃ m c', ai_move fuel ai hu (World b c) = (Ok (Some m), World b c') ∧
          cache_ok c' ∧ b !! m = Some "" ∧
          position_value (<[m := ai]> b) ai hu false = position_value b ai hu true.
Proof.
  intros Hok Hr Hc Hfuel. pose proof Hok as (_ & Hai & _).
  destruct (alpha_beta_bounds (count_empty b) b ai hu true (-999) 999)
    as (v & bm & Hv & Hrange & (_ & _ & Hexact) & Hbest); [done..|].
  destruct (Hbest ltac:(lia) Hr) as (m & -> & Hm & Hchild).
  apply (minimax_mono _ fuel) in Hv; [|lia].
  destruct (ai_move_pure fuel ai hu (World b c) v (Some m) Hc Hv)
    as (c' & _ & E & Hc').
  exists m, c'. split_and!; [done..|].
  unfold position_value. rewrite (Hexact ltac:(lia)).
  simpl in Hchild. rewrite <- Hchild.
  by rewrite (count_empty_insert b m ai Hm Hai).
Qed.






Lemma extends_insert b b' m x :
  extends b b' → b' !! m = Some "" → extends b (<[m := x]> b').
Proof.
  intros [Hlen Hb] Hm. split; [by rewrite length_insert|].
  intros i y Hi Hy. rewrite list_lookup_insert_ne; [by apply Hb|].
  intros ->. specialize (Hb _ _ Hi Hy). congruence.
Qed.




(** ** Lists of other lengths *)

Lemma getitem_raise {A} (l : list A) i e :
  getitem l i = Raise e → e = IndexError ∧ (length l ≤ i)%nat.
Proof.
  unfold getitem. destruct (l !! i) eqn:E; [done|]. intros [= <-].
  split; [done|]. by apply lookup_ge_None.
Qed.

Lemma line_winner_Some b l x : line_winner b l = Ok (Some x) → line_full b l x.
Proof.
  destruct l as [[i j] k]. unfold line_winner, line_full, getitem. simpl.
  destruct (b !! i) as [x'|]; simpl; [|done].
  destruct (String.eqb_spec x' ""); [done|].
  destruct (b !! j) as [y|]; simpl; [|done].
  destruct (String.eqb_spec x' y); simpl; [|done].
  destruct (b !! k) as [z|]; simpl; [|done].
  destruct (String.eqb_spec y z); [|done]. intros [= <-]. by subst.
Qed.

Lemma line_winner_raise b l e : line_winner b l = Raise e → e = IndexError.
Proof.
  destruct l as [[i j] k]. unfold line_winner, getitem.
  destruct (b !! i) as [x'|]; simpl; [|by intros [= <-]].
  destruct (String.eqb x' ""); [done|].
  destruct (b !! j) as [y|]; simpl; [|by intros [= <-]].
  destruct (negb _); [done|].
  destruct (b !! k) as [z|]; simpl; [|by intros [= <-]].
  by destruct (String.eqb y z).
Qed.

Lemma WINNING_LINES_in_range_ge n :
  (9 ≤ n)%nat → Forall (line_in_range n) WINNING_LINES.
Proof.
  intros Hn. eapply Forall_impl; [apply WINNING_LINES_in_range|].
  intros l (? & ? & ?). unfold line_in_range. lia.
Qed.

(** ** The cache only grows *)

(** A relation between states that every recursive call respects is
    respected by the loops and by the body. *)
Section StateOrder.
Context {St : Type} (R : St → St → Prop).
Context (rec : list string → string → string → bool → Z → Z → St →
               res (Z * option nat) * St).
Hypothesis R_refl : ∀ s, R s s.
Hypothesis R_trans : ∀ s1 s2 s3, R s1 s2 → R s2 s3 → R s1 s3.
Hypothesis Hrec : ∀ b ai hu mx alpha beta s x s',
  rec b ai hu mx alpha beta s = (x, s') → R s s'.

Lemma max_loop_order ai hu moves : ∀ b v bm alpha beta s x s',
  max_loop rec ai hu b moves v bm alpha beta s = (x, s') → R s s'.
Proof.
  induction moves as [|m moves IH]; intros b v bm alpha beta s x s'; simpl.
  - by intros [= <- <-].
  - destruct (rec _ ai hu false alpha beta s) as [[[score mv]|e] s1] eqn:E1;
      apply Hrec in E1; [|by intros [= <- <-]].
    destruct (score >? v).
    + destruct (Z.max alpha score >=? beta); [by intros [= <- <-]|].
      intros E%IH. by eapply R_trans.
    + destruct (Z.max alpha v >=? beta); [by intros [= <- <-]|].
      intros E%IH. by eapply R_trans.
Qed.

Lemma min_loop_order ai hu moves : ∀ b v bm alpha beta s x s',
  min_loop rec ai hu b moves v bm alpha beta s = (x, s') → R s s'.
Proof.
  induction moves as [|m moves IH]; intros b v bm alpha beta s x s'; simpl.
  - by intros [= <- <-].
  - destruct (rec _ ai hu true alpha beta s) as [[[score mv]|e] s1] eqn:E1;
      apply Hrec in E1; [|by intros [= <- <-]].
    destruct (score <? v).
    + destruct (alpha >=? Z.min beta score); [by intros [= <- <-]|].
      intros E%IH. by eapply R_trans.
    + destruct (alpha >=? Z.min beta v); [by intros [= <- <-]|].
      intros E%IH. by eapply R_trans.
Qed.

Lemma minimax_body_order b ai hu mx alpha beta s x s' :
  minimax_body rec b ai hu mx alpha beta s = (x, s') → R s s'.
Proof.
  unfold minimax_body.
  destruct (check_winner b) as [result|e]; [|by intros [= <- <-]].
  destruct (result_is result ai); [by intros [= <- <-]|].
  destruct (result_is result hu); [by intros [= <- <-]|].
  destruct (result_is result "Draw"); [by intros [= <- <-]|].
  destruct mx.
  - destruct (max_loop rec _ _ _ _ _ _ _ _ s) as [[[[v bm] b']|e] s1] eqn:E;
      apply max_loop_order in E; by intros [= <- <-].
  - destruct (min_loop rec _ _ _ _ _ _ _ _ s) as [[[[v bm] b']|e] s1] eqn:E;
      apply min_loop_order in E; by intros [= <- <-].
Qed.
End StateOrder.

(** A call of the decorated function removes no entry and changes none. *)
Lemma minimax_cached_grows fuel : ∀ b ai hu mx alpha beta (c : cache) x c',
  minimax_cached fuel b ai hu mx alpha beta c = (x, c') → c ⊆ c'.
Proof.
  induction fuel as [|fuel IH]; intros b ai hu mx alpha beta c x c'.
  - simpl. destruct (c !! _); intros [= <- <-]; done.
  - rewrite minimax_cached_S.
    destruct (c !! (b, ai, hu, mx, alpha, beta)) as [r0|] eqn:Hmiss;
      [by intros [= <- <-]|].
    assert (Hbody : ∀ x1 c1, minimax_body (minimax_cached fuel) b ai hu mx
                                alpha beta c = (x1, c1) → c ⊆ c1).
    { intros x1 c1. apply (minimax_body_order (⊆)); [done| |exact IH].
      intros s1 s2 s3 H1 H2. by etrans. }
    destruct (minimax_body _ _ _ _ _ _ _ c) as [[r1|e] c1] eqn:E;
      specialize (Hbody _ _ eq_refl); intros [= <- <-]; [|done].
    apply map_subseteq_spec. intros k v Hk.
    rewrite lookup_insert_ne; [by apply (lookup_weaken c)|].
    intros <-. congruence.
Qed.

(** A call that returns leaves its result under the key of its arguments. *)
Lemma minimax_cached_stored fuel b ai hu mx alpha beta c r c' :
  minimax_cached fuel b ai hu mx alpha beta c = (Ok r, c') →
  (c' : cache) !! (b, ai, hu, mx, alpha, beta) = Some r.
Proof.
  destruct fuel as [|fuel].
  - simpl. destruct (c !! _) as [r0|] eqn:Hc; [|done]. by intros [= <- <-].
  - rewrite minimax_cached_S.
    destruct (c !! _) as [r0|] eqn:Hc; [by intros [= <- <-]|].
    destruct (minimax_body _ _ _ _ _ _ _ c) as [[r1|e] c1]; [|done].
    intros [= <- <-]. apply lookup_insert_eq.
Qed.

(** ** Full boards and what [display] shows *)

Lemma available_moves_full (b : list string) : "" ∉ b → available_moves b = [].
Proof.
  intros Hfull. destruct (available_moves b) as [|m l] eqn:E; [done|].
  destruct Hfull. apply (list_elem_of_lookup_2 b m).
  apply elem_of_available_moves. rewrite E. by left.
Qed.

(** What [display] shows for a plain cell is one character, and tells the
    cell. *)
Lemma shown_plain_cell (c : string) :
  plain_cell c →
  ∃ a, (if negb (String.eqb c "") then c else " ") = String a "".
Proof.
  intros [->|[Hlen Hc]]; [by eexists|].
  destruct c as [|a [|a' c]]; [done| |done]. by exists a.
Qed.

Lemma shown_plain_cell_inj (c c' : string) :
  plain_cell c → plain_cell c' →
  (if negb (String.eqb c "") then c else " ")
  = (if negb (String.eqb c' "") then c' else " ") → c = c'.
Proof.
  intros [->|[Hlen Hc]] [->|[Hlen' Hc']]; try done.
  - destruct c' as [|a' c']; [done|]. simpl. congruence.
  - destruct c as [|a c]; [done|]. simpl. congruence.
  - destruct c as [|a c]; [done|]. destruct c' as [|a' c']; [done|]. by simpl.
Qed.

Lemma shown_plain_cells_inj (b b' : list string) :
  Forall plain_cell b → Forall plain_cell b' →
  (λ c, if negb (String.eqb c "") then c else " ") <$> b
  = (λ c, if negb (String.eqb c "") then c else " ") <$> b' → b = b'.
Proof.
  intros Hb. revert b'.
  induction Hb as [|c b Hc Hb IH]; intros [|c' b'] Hb'; try done.
  apply Forall_cons in Hb' as [Hc' Hb']. rewrite !fmap_cons.
  intros [= E1 E2]. f_equal; [by apply shown_plain_cell_inj|by apply IH].
Qed.

(** Nine one-character strings can be read back from the three rows that
    [display] makes of them. *)
Lemma display_rows_inj (l l' : list string) :
  length l = 9%nat → length l' = 9%nat →
  Forall (λ s, ∃ a, s = String a "") l →
  Forall (λ s, ∃ a, s = String a "") l' →
  display_row l 0 1 2 = display_row l' 0 1 2 →
  display_row l 3 4 5 = display_row l' 3 4 5 →
  display_row l 6 7 8 = display_row l' 6 7 8 → l = l'.
Proof.
  intros Hlen Hlen' Hl Hl'.
  do 9 (destruct l as [|? l]; [done|]). destruct l; [|done].
  do 9 (destruct l' as [|? l']; [done|]). destruct l'; [|done].
  repeat match goal with
         | H : Forall _ (_ :: _) |- _ => apply Forall_cons in H as [[? ->] H]
         end.
  unfold display_row, getitem. simpl.
  intros [= -> -> ->] [= -> -> ->] [= -> -> ->]. done.
Qed.

(** ** Lines on lists of any length *)

(** What [line_winner] returns on a list of any length: a raise comes from
    an index out of range, before the line could be seen full. *)
Lemma line_winner_cases b l :
  match line_winner b l with
  | Ok (Some x) => line_full b l x
  | Ok None => ∀ x, ¬ line_full b l x
  | Raise e => e = IndexError ∧ ∀ x, ¬ line_full b l x
  end.
Proof.
  destruct l as [[i j] k]. unfold line_winner, getitem, line_full. simpl.
  destruct (b !! i) as [x|] eqn:Ei; simpl; [|split; [done|]; by intros x (? & _)].
  destruct (String.eqb_spec x "") as [->|Hx].
  { intros x' (H1 & _ & _ & H4). congruence. }
  destruct (b !! j) as [y|] eqn:Ej; simpl;
    [|split; [done|]; by intros x' (_ & ? & _)].
  destruct (String.eqb_spec x y) as [<-|Hxy]; simpl.
  2:{ intros x' (H1 & H2 & _). congruence. }
  destruct (b !! k) as [z|] eqn:Ek; simpl;
    [|split; [done|]; by intros x' (_ & _ & ? & _)].
  destruct (String.eqb_spec x z) as [<-|Hxz]; simpl.
  - done.
  - intros x' (H1 & _ & H3 & _). congruence.
Qed.

Lemma line_winner_full b l x : line_full b l x → line_winner b l = Ok (Some x).
Proof.
  intros Hfull. pose proof (line_winner_cases b l) as H.
  destruct (line_winner b l) as [[y|]|e].
  - do 2 f_equal. destruct Hfull as (H1 & _), H as (H1' & _). congruence.
  - by destruct (H x).
  - destruct H as [_ H]. by destruct (H x).
Qed.

Lemma line_winner_not_full b l :
  (∀ x, ¬ line_full b l x) →
  line_winner b l = Ok None ∨ line_winner b l = Raise IndexError.
Proof.
  intros Hno. pose proof (line_winner_cases b l) as H.
  destruct (line_winner b l) as [[y|]|e]; [by destruct (Hno y)|by left|].
  destruct H as [-> _]. by right.
Qed.

(** ** The move returned at the root, by plain minimax *)

(** With the window of [ai_move] the search returns the plain value. *)
Lemma position_value_search b ai hu mx :
  node_ok b ai hu →
  ∃ bm, minimax (S (count_empty b)) b ai hu mx (-999) 999
        = Ok (position_value b ai hu mx, bm) ∧
        -1 <= position_value b ai hu mx <= 1.
Proof.
  intros Hok.
  destruct (alpha_beta_bounds (count_empty b) b ai hu mx (-999) 999)
    as (v & bm & Hv & Hrange & (_ & _ & Hexact) & _); [done..|].
  unfold position_value. rewrite (Hexact ltac:(lia)). by exists bm.
Qed.

(** The value of a child at the depth of its parent's loop. *)
Lemma position_value_child b ai hu m x mx :
  b !! m = Some "" → x ≠ "" →
  position_value (<[m := x]> b) ai hu mx
  = plain_minimax (count_empty b) (<[m := x]> b) ai hu mx.
Proof.
  intros Hm Hx. unfold position_value.
  by rewrite (count_empty_insert b m x Hm Hx).
Qed.

(** At the root of a game in progress the search returns the plain value
    and the lowest empty position whose placement keeps that value. *)
Lemma root_first_best b ai hu :
  node_ok b ai hu → check_winner b = Ok None →
  ∃ m, minimax (S (count_empty b)) b ai hu true (-999) 999
       = Ok (position_value b ai hu true, Some m) ∧
       b !! m = Some "" ∧
       position_value (<[m := ai]> b) ai hu false = position_value b ai hu true ∧
       (∀ m', b !! m' = Some "" →
              position_value (<[m' := ai]> b) ai hu false
              <= position_value b ai hu true) ∧
       (∀ m', (m' < m)%nat → b !! m' = Some "" →
              position_value (<[m' := ai]> b) ai hu false
              < position_value b ai hu true).
Proof.
  intros Hok Hr. pose proof Hok as (Hlen & Hai & Hhu & _).
  destruct (position_value_search b ai hu true Hok) as (bm0 & Hv0 & Hrange).
  destruct (check_winner_None b Hlen Hr) as [_ Hempty].
  apply count_empty_pos in Hempty.
  destruct (count_empty b) as [|n] eqn:Hn; [lia|].
  set (t := λ m, plain_minimax (S n) (<[m := ai]> b) ai hu false).
  assert (∀ m, b !! m = Some "" →
               position_value (<[m := ai]> b) ai hu false = t m) as Ht.
  { intros m Hm. rewrite (position_value_child b ai hu m ai false Hm Hai).
    by rewrite Hn. }
  assert (∃ v m, minimax (S (S n)) b ai hu true (-999) 999 = Ok (v, Some m) ∧
                 b !! m = Some "" ∧ t m = v ∧
                 (∀ m', b !! m' = Some "" → t m' <= v) ∧
                 (∀ m', (m' < m)%nat → b !! m' = Some "" → t m' < v))
    as (v & m & Hv & Hm & Htm & Hall & Hfirst).
  { rewrite (minimax_in_progress _ _ _ _ _ _ _ Hr).
    destruct (max_loop_rule_open (stateless (minimax (S n))) ai hu b 999
                (λ rest v bm alpha' _,
                   ∃ done, available_moves b = done ++ rest ∧
                     ((v = -999 ∧ alpha' = -999 ∧ done = [])
                      ∨ (-1 <= v <= 1 ∧ alpha' = v ∧
                         ∃ m, bm = Some m ∧ m ∈ done ∧ t m = v ∧
                              (∀ m', m' ∈ done → t m' <= v) ∧
                              (∀ m', m' ∈ done → (m' < m)%nat → t m' < v)))))
      with (moves := available_moves b) (v := -999) (bm := @None nat)
           (alpha := -999) (s := tt)
      as (v' & bm' & [] & rest & alpha' & -> & (done & Hsplit & Hst) & Hend).
    - intros m rest v bm a [] (done & Hsplit & Hst) Hopen.
      assert (b !! m = Some "") as Hm.
      { apply elem_of_available_moves. rewrite Hsplit.
        apply elem_of_app. right. apply elem_of_cons. by left. }
      assert (∀ m', m' ∈ done → (m' < m)%nat) as Hbefore.
      { intros m' Hm'. pose proof (available_moves_sorted b) as Hs.
        rewrite Hsplit in Hs.
        apply (StronglySorted_app_1_elem_of _ _ _ m' m Hs Hm').
        apply elem_of_cons. by left. }
      pose proof (node_ok_insert b ai hu m ai Hok Hr Hm ltac:(auto)) as Hok'.
      pose proof (count_empty_insert b m ai Hm Hai) as Hn'.
      destruct (alpha_beta_bounds n (<[m := ai]> b) ai hu false a 999 Hok'
                  ltac:(lia) Hopen)
        as (s & mv & Es & Hs & (B1 & _ & B3) & _).
      fold (t m) in B1, B3.
      exists s, mv, tt. unfold stateless. rewrite Es. split; [done|].
      exists (done ++ [m]). split; [by rewrite <- app_assoc|]. right.
      destruct Hst as [(-> & -> & ->)|(Hv & -> & m0 & -> & Hm0 & Htm0 & I1 & I2)].
      + destruct (Z.gtb_spec s (-999)); [|lia]. simpl.
        split_and!; [lia..|]. exists m.
        specialize (B3 ltac:(lia)).
        split_and!; [done|apply list_elem_of_singleton; done|done| |].
        * intros m' ->%list_elem_of_singleton. lia.
        * intros m' ->%list_elem_of_singleton. lia.
      + destruct (Z.gtb_spec s v); simpl.
        * split_and!; [lia..|]. exists m.
          specialize (B3 ltac:(lia)).
          split_and!; [done| |done| |].
          -- apply elem_of_app. right. by apply list_elem_of_singleton.
          -- intros m' [Hm' | ->%list_elem_of_singleton]%elem_of_app; [|lia].
             specialize (I1 m' Hm'). lia.
          -- intros m' [Hm' | ->%list_elem_of_singleton]%elem_of_app ?; [|lia].
             specialize (I1 m' Hm'). lia.
        * split_and!; [lia..|]. exists m0.
          specialize (B1 ltac:(lia)).
          split_and!; [done| |done| |].
          -- apply elem_of_app. by left.
          -- intros m' [Hm' | ->%list_elem_of_singleton]%elem_of_app; [|lia].
             by apply I1.
          -- intros m' [Hm' | ->%list_elem_of_singleton]%elem_of_app Hlt;
               [by apply I2|].
             specialize (Hbefore m0 Hm0). lia.
    - apply available_moves_empty.
    - done.
    - exists []. split; [done|]. by left.
    - destruct Hst as [(-> & -> & ->)|(Hv & -> & m0 & -> & Hm0 & Htm0 & I1 & I2)].
      { exfalso. destruct Hend as [->|?]; [|lia]. simpl in Hsplit.
        unfold count_empty in Hn. rewrite Hsplit in Hn. done. }
      destruct Hend as [->|?]; [|lia]. rewrite app_nil_r in Hsplit.
      exists v', m0. split_and!; [done| |done| |].
      + apply elem_of_available_moves. by rewrite Hsplit.
      + intros m' Hm'. apply I1. rewrite <- Hsplit.
        by apply elem_of_available_moves.
      + intros m' Hlt Hm'. apply I2; [|done]. rewrite <- Hsplit.
        by apply elem_of_available_moves. }
  rewrite Hv in Hv0. injection Hv0 as Hvv _.
  exists m. rewrite <- Hvv. split_and!; [done..| | |].
  - by rewrite Ht.
  - intros m' Hm'. rewrite Ht by done. by apply Hall.
  - intros m' Hlt Hm'. rewrite Ht by done. by apply Hfirst.
Qed.

(** When the opponent can complete a line at [p] and the AI plays elsewhere
    without completing a line, the position is lost. *)
Lemma non_block_loses b a h p l m :
  length b = 9%nat → none_full b WINNING_LINES → a ≠ "" → h ≠ "" → a ≠ h →
  (∀ l', l' ∈ WINNING_LINES → ¬ line_full (<[m := a]> b) l' a) →
  b !! p = Some "" → l ∈ WINNING_LINES → line_full (<[p := h]> b) l h →
  b !! m = Some "" → m ≠ p →
  position_value (<[m := a]> b) a h false = -1.
Proof.
  intros Hlen Hno Ha Hh Hne Hcannot Hp Hl Hfull Hm Hmp.
  set (c := <[m := a]> b).
  assert (length c = 9%nat) as Hlenc by (unfold c; by rewrite length_insert).
  assert (none_full c WINNING_LINES) as Hnoc by (by apply none_full_insert).
  assert (c !! p = Some "") as Hpc.
  { unfold c. by rewrite list_lookup_insert_ne. }
  assert (line_full (<[p := h]> c) l h) as Hfullc.
  { unfold c. rewrite list_insert_insert_ne by done.
    apply line_full_insert_other; [|done]. by rewrite list_lookup_insert_ne. }
  pose proof (none_full_in_progress c p Hlenc Hnoc Hpc) as Hr.
  assert (node_ok c a h) as Hok by (split_and!; [done..|by left]).
  destruct (position_value_search c a h false Hok) as (bm & Hv & _).
  destruct (minimax_threatened (S (count_empty c)) c a h p l (-999) 999)
    as (v & bm' & Hv' & Hge & Hle); try done; [lia|].
  rewrite Hv in Hv'. injection Hv' as -> _. lia.
Qed.

Lemma block_board_cannot_win m l :
  block_board !! m = Some "" → l ∈ WINNING_LINES →
  ¬ line_full (<[m := "O"]> block_board) l "O".
Proof.
  intros Hm Hl (H1 & H2 & H3 & _). unfold WINNING_LINES in Hl.
  destruct m as [|[|[|[|[|[|[|[|[|m]]]]]]]]]; simpl in Hm; try done;
    repeat (apply elem_of_cons in Hl as [-> | Hl]); simpl in *;
    try congruence; by apply elem_of_nil in Hl.
Qed.

(** * The claims *)



(** C2. From the empty board, with both players' moves chosen by [ai_move]
    (each call with the mover's mark as the AI mark), the game ends in a
    draw, whatever the two marks, the cache at the start and the number of
    rounds allowed beyond nine; and the value the search returns for the
    empty board is 0. *)
Theorem self_play_draws (rounds fuel : nat) (a h : string) (c : cache) :
  marks a h → cache_ok c → (9 ≤ rounds)%nat → (10 ≤ fuel)%nat →
  (∃ w', self_play rounds fuel a h (World empty_board c)
         = (Ok (Some "Draw"), w')) ∧
  (∃ mv c', minimax_cached fuel empty_board a h true (-999) 999 c
            = (Ok (0, mv), c')).
Proof.
  intros Hm Hc Hrounds Hfuel. destruct empty_board_XO as [Hv Hplay]. split.
  - pose proof (self_play_rename 9 10 "X" "O" a h empty_board marks_XO Hm
                  (over_marks_empty_board _ _)) as E.
    rewrite (rename_empty_board _ _ _ _ marks_XO), Hplay in E.
    unfold res_map in E. cbn [fst snd option_map] in E.
    rewrite (rename_draw "X" "O" a h marks_XO) in E.
    apply (self_play_stateless_more _ _ rounds) in E; [|done].
    apply (self_play_stateless_mono _ _ fuel) in E; [|done].
    destruct (self_play_complete rounds fuel a h (World empty_board c) _ _ Hc E)
      as (c' & -> & _). eauto.
  - pose proof (minimax_rename "X" "O" a h marks_XO Hm 10 empty_board true
                  (-999) 999 (over_marks_empty_board _ _)) as E.
    rewrite (rename_empty_board _ _ _ _ marks_XO), Hv in E.
    apply (minimax_mono _ fuel) in E; [|done].
    destruct (minimax_cached_complete _ _ _ _ _ _ _ _ _ Hc E) as (c' & -> & _).
    eauto.
Qed.

Lemma self_play_draws_witness :
  (∃ w', self_play 9 10 "O" "X" (World empty_board ∅) = (Ok (Some "Draw"), w')) ∧
  (∃ mv c', minimax_cached 10 empty_board "O" "X" true (-999) 999 ∅
            = (Ok (0, mv), c')).
Proof.
  apply (self_play_draws 9 10 "O" "X" ∅).
  - unfold marks. split_and!; discriminate.
  - apply cache_ok_empty.
  - lia.
  - lia.
Defined.

(** C3 (as the code has it). On a board of nine cells with no full line on
    which the AI can complete a line by playing [p], the search value is 1
    and [ai_move] returns the lowest empty position after which the AI wins
    against every play of the opponent (the position it leads to has the
    plain minimax value 1, and no lower empty position does): this is [p]
    itself or a lower position, which need not complete a line.  On the
    board [a, a, '', h, h, '', '', '', ''] it is position 2. *)
Theorem ai_move_takes_win (fuel : nat) (a h : string) (c : cache)
    (b : list string) (p : nat) (l : nat * nat * nat) :
  a ≠ "" → h ≠ "" → cache_ok c →
  length b = 9%nat → none_full b WINNING_LINES → (count_empty b < fuel)%nat →
  b !! p = Some "" → l ∈ WINNING_LINES → line_full (<[p := a]> b) l a →
  ∃ m c',
    minimax_cached fuel b a h true (-999) 999 c = (Ok (1, Some m), c') ∧
    ai_move fuel a h (World b c) = (Ok (Some m), World b c') ∧
    (m ≤ p)%nat ∧ b !! m = Some "" ∧
    position_value b a h true = 1 ∧
    position_value (<[m := a]> b) a h false = 1 ∧
    (∀ m', (m' < m)%nat → b !! m' = Some "" →
           position_value (<[m' := a]> b) a h false < 1) ∧
    (b = win_board a h → m = 2%nat).
Proof.
  intros Ha Hh Hc Hlen Hno Hfuel Hp Hl Hfull.
  destruct (minimax_takes_win fuel b a h p l) as (m & Hv & Hle & Hm); try done.
  destruct (ai_move_pure fuel a h (World b c) 1 (Some m) Hc Hv)
    as (c' & E1 & E2 & _).
  pose proof (none_full_in_progress b p Hlen Hno Hp) as Hr.
  assert (node_ok b a h) as Hok by (split_and!; [done..|by left]).
  destruct (root_first_best b a h Hok Hr)
    as (m1 & Hv1 & _ & Hchild & _ & Hfirst).
  apply (minimax_mono _ fuel) in Hv1; [|lia].
  rewrite Hv in Hv1. injection Hv1 as Hval <-.
  exists m, c'. rewrite <- Hval in *. split_and!; [done..|].
  intros ->. destruct m as [|[|[|m]]]; simpl in Hm; [congruence..|done|].
  assert ((0, 1, 2)%nat ∈ WINNING_LINES) as Hrow
    by (unfold WINNING_LINES; apply elem_of_cons; by left).
  assert (line_full (<[2%nat := a]> (win_board a h)) (0, 1, 2)%nat a) as Hrowfull
    by (by split_and!).
  destruct (minimax_takes_win fuel (win_board a h) a h 2 (0, 1, 2)%nat
              Hlen Hno Ha Hh Hfuel eq_refl Hrow Hrowfull)
    as (m2 & Hv2 & Hle2 & _).
  rewrite Hv in Hv2. injection Hv2 as <-. lia.
Qed.

Lemma ai_move_takes_win_witness :
  ∃ m c',
    minimax_cached 6 fork_board "X" "O" true (-999) 999 ∅ = (Ok (1, Some m), c') ∧
    ai_move 6 "X" "O" (World fork_board ∅) = (Ok (Some m), World fork_board c') ∧
    (m ≤ 8)%nat ∧ fork_board !! m = Some "" ∧
    position_value fork_board "X" "O" true = 1 ∧
    position_value (<[m := "X"]> fork_board) "X" "O" false = 1 ∧
    (∀ m', (m' < m)%nat → fork_board !! m' = Some "" →
           position_value (<[m' := "X"]> fork_board) "X" "O" false < 1) ∧
    (fork_board = win_board "X" "O" → m = 2%nat).
Proof.
  apply (ai_move_takes_win 6 "X" "O" ∅ fork_board 8 (6, 7, 8)%nat).
  - discriminate.
  - discriminate.
  - apply cache_ok_empty.
  - reflexivity.
  - apply check_winner_None; [reflexivity|vm_compute; reflexivity].
  - vm_compute. lia.
  - reflexivity.
  - unfold WINNING_LINES. do 2 (apply elem_of_cons; right).
    apply elem_of_cons. by left.
  - by split_and!.
Defined.

(** C3, counterexample: on [fork_board] the mark X completes the bottom row
    by playing 8, yet [ai_move] returns 0, a move that completes no line. *)
Lemma immediate_win_not_taken :
  (ai_move 6 "X" "O" (World fork_board ∅)).1 = Ok (Some 0%nat) ∧
  check_winner fork_board = Ok None ∧
  check_winner (<[8%nat := "X"]> fork_board) = Ok (Some "X") ∧
  check_winner (<[0%nat := "X"]> fork_board) = Ok None.
Proof. vm_compute. split_and!; reflexivity. Qed.

(** C4 (as the code has it). On a board of nine cells with no full line on
    which the AI cannot complete a line in one move and the opponent can
    complete one by playing [p], every move of the AI other than [p] loses
    (plain minimax value -1), so the board is worth what the position after
    the block is worth.  [ai_move] returns [p] when the block holds (the
    position after it has a value of at least 0); when even the block loses
    (value -1) it returns the lowest empty position, which need not be [p].
    The value the search returns is the plain minimax value of the board.
    On the board ['', a, '', h, h, '', '', '', ''] the value is -1 and
    [ai_move] returns position 0. *)
Theorem ai_move_blocks (fuel : nat) (a h : string) (c : cache)
    (b : list string) (p : nat) (l : nat * nat * nat) :
  marks a h → cache_ok c →
  length b = 9%nat → none_full b WINNING_LINES → (count_empty b < fuel)%nat →
  (∀ m l', b !! m = Some "" → l' ∈ WINNING_LINES →
           ¬ line_full (<[m := a]> b) l' a) →
  b !! p = Some "" → l ∈ WINNING_LINES → line_full (<[p := h]> b) l h →
  ∃ m c',
    minimax_cached fuel b a h true (-999) 999 c
      = (Ok (position_value b a h true, Some m), c') ∧
    ai_move fuel a h (World b c) = (Ok (Some m), World b c') ∧
    (∀ m', b !! m' = Some "" → m' ≠ p →
           position_value (<[m' := a]> b) a h false = -1) ∧
    position_value b a h true = position_value (<[p := a]> b) a h false ∧
    -1 <= position_value (<[p := a]> b) a h false <= 1 ∧
    (0 <= position_value (<[p := a]> b) a h false → m = p) ∧
    (position_value (<[p := a]> b) a h false = -1 →
     b !! m = Some "" ∧ ∀ m', b !! m' = Some "" → (m ≤ m')%nat) ∧
    (b = threat_board a h → m = 0%nat ∧ position_value b a h true = -1).
Proof.
  intros Hmk Hc Hlen Hno Hfuel Hcannot Hp Hl Hfull.
  pose proof Hmk as (Ha & Hh & Hne & _).
  pose proof (none_full_in_progress b p Hlen Hno Hp) as Hr.
  assert (node_ok b a h) as Hok by (split_and!; [done..|by left]).
  destruct (root_first_best b a h Hok Hr)
    as (m & Hv & Hm & Hchild & Hall & Hfirst).
  apply (minimax_mono _ fuel) in Hv; [|lia].
  destruct (ai_move_pure fuel a h (World b c) _ _ Hc Hv) as (c' & E1 & E2 & _).
  assert (∀ m', b !! m' = Some "" → m' ≠ p →
                position_value (<[m' := a]> b) a h false = -1) as Hlose.
  { intros m' Hm' Hne'. apply (non_block_loses b a h p l m'); try done.
    intros l' Hl'. by apply Hcannot. }
  assert (-1 <= position_value (<[p := a]> b) a h false <= 1) as Hrange.
  { destruct (position_value_search (<[p := a]> b) a h false) as (_ & _ & Hrg);
      [|done].
    apply node_ok_insert; auto. }
  assert (position_value b a h true = position_value (<[p := a]> b) a h false)
    as Hblock.
  { destruct (decide (m = p)) as [->|Hmp]; [done|].
    specialize (Hlose m Hm Hmp). specialize (Hall p Hp). lia. }
  destruct (available_moves b) as [|m0 tl] eqn:Hmoves.
  { apply elem_of_available_moves in Hp. rewrite Hmoves in Hp.
    by apply elem_of_nil in Hp. }
  destruct (minimax_blocks fuel b a h p l m0 tl) as (v & m1 & Hv1 & Hcases);
    try done.
  rewrite Hv in Hv1. injection Hv1 as <- <-.
  exists m, c'. do 5 (split; [done|]). split_and!.
  - intros Hge. destruct Hcases as [[? ?]|[_ ?]]; [lia|done].
  - intros Hneg. split; [done|]. intros m' Hm'.
    destruct Hcases as [[_ ->]|[? ?]]; [|lia].
    by eapply head_available_least.
  - intros ->.
    pose proof (minimax_rename "X" "O" a h marks_XO Hmk 7 (threat_board "X" "O")
                  true (-999) 999 (threat_board_over_marks _ _)) as E.
    rewrite threat_board_rename, threat_board_XO in E.
    assert (count_empty (threat_board a h) = 6%nat) as Hcount.
    { apply eqb_false_iff in Ha, Hh.
      unfold count_empty, available_moves, threat_board. cbn [available_from].
      by rewrite Ha, Hh. }
    apply (minimax_mono _ fuel) in E; [|lia].
    rewrite Hv in E. by injection E as -> ->.
Qed.

Lemma ai_move_blocks_witness :
  ∃ c', ai_move 7 "O" "X" (World block_board ∅)
        = (Ok (Some 3%nat), World block_board c') ∧
        position_value block_board "O" "X" true = 0.
Proof.
  destruct (ai_move_blocks 7 "O" "X" ∅ block_board 3 (3, 4, 5)%nat)
    as (m & c' & _ & E & _ & Hval & _ & Hblock & _).
  - unfold marks. split_and!; discriminate.
  - apply cache_ok_empty.
  - reflexivity.
  - apply check_winner_None; [reflexivity|vm_compute; reflexivity].
  - vm_compute. lia.
  - apply block_board_cannot_win.
  - reflexivity.
  - unfold WINNING_LINES. apply elem_of_cons. right. apply elem_of_cons. by left.
  - by split_and!.
  - assert (m = 3%nat) as Hm3 by (apply Hblock; vm_compute; discriminate).
    rewrite Hm3 in E. exists c'. split; [exact E|].
    rewrite Hval. vm_compute. reflexivity.
Defined.

(** C4, counterexample: on ['', X, '', O, O, '', '', '', ''] with the AI
    mark X, [ai_move] returns position 0; position 3 holds the mark O and
    the opponent completes the middle row by playing 5. *)
Lemma threat_example_returns_0 :
  (ai_move 7 "X" "O" (World (threat_board "X" "O") ∅)).1 = Ok (Some 0%nat) ∧
  (ai_move 7 "X" "O" (World (threat_board "X" "O") ∅)).1 ≠ Ok (Some 3%nat) ∧
  threat_board "X" "O" !! 3%nat = Some "O" ∧
  check_winner (<[5%nat := "O"]> (threat_board "X" "O")) = Ok (Some "O").
Proof. vm_compute. split_and!; (reflexivity || discriminate). Qed.

(** C5 (as the code has it). The cache is keyed by all six arguments, the
    window included.  A call that returns has stored its value under its six
    arguments, and any later call with the same six arguments returns that
    value and leaves the cache as it is.  A later call with the same board,
    marks and flag but any window is answered for its own window: from a
    cache with right entries it returns what the undecorated function
    returns for that window, and afterwards the cache holds both values, each
    under its own six arguments. *)
Theorem cache_keyed_by_all_arguments (fuel fuel' : nat) (b : list string)
    (ai hu : string) (mx : bool) (alpha beta : Z) (c c' : cache)
    (r : Z * option nat) :
  minimax_cached fuel b ai hu mx alpha beta c = (Ok r, c') →
  c' !! (b, ai, hu, mx, alpha, beta) = Some r ∧
  minimax_cached fuel' b ai hu mx alpha beta c' = (Ok r, c') ∧
  (cache_ok c →
   ∀ (fuel2 : nat) (alpha2 beta2 : Z) (r2 : Z * option nat),
     minimax fuel2 b ai hu mx alpha2 beta2 = Ok r2 →
     ∃ c'', minimax_cached fuel2 b ai hu mx alpha2 beta2 c' = (Ok r2, c'') ∧
            c'' !! (b, ai, hu, mx, alpha, beta) = Some r ∧
            c'' !! (b, ai, hu, mx, alpha2, beta2) = Some r2).
Proof.
  intros E.
  pose proof (minimax_cached_stored _ _ _ _ _ _ _ _ _ _ E) as Hhit.
  split_and!; [done|by apply minimax_cached_hit|].
  intros Hc fuel2 alpha2 beta2 r2 Hr2.
  destruct (minimax_cached_sound _ _ _ _ _ _ _ _ _ _ Hc E) as [Hc' _].
  destruct (minimax_cached_complete _ _ _ _ _ _ _ _ _ Hc' Hr2) as (c'' & E2 & _).
  exists c''. split_and!; [done| |].
  - apply (lookup_weaken c'); [done|].
    by apply (minimax_cached_grows _ _ _ _ _ _ _ _ _ _ E2).
  - by apply (minimax_cached_stored _ _ _ _ _ _ _ _ _ _ E2).
Qed.

Lemma cache_keyed_by_all_arguments_witness :
  window_cache !! (window_board, "X", "O", true, -999, 999) = Some (1, Some 8%nat) ∧
  minimax_cached 0 window_board "X" "O" true (-999) 999 window_cache
    = (Ok (1, Some 8%nat), window_cache) ∧
  ∃ c'', minimax_cached 4 window_board "X" "O" true (-999) 0 window_cache
         = (Ok (0, Some 7%nat), c'') ∧
         c'' !! (window_board, "X", "O", true, -999, 999) = Some (1, Some 8%nat) ∧
         c'' !! (window_board, "X", "O", true, -999, 0) = Some (0, Some 7%nat).
Proof.
  destruct (cache_keyed_by_all_arguments 4 0 window_board "X" "O" true (-999) 999 ∅
              window_cache (1, Some 8%nat) window_call) as (H1 & H2 & H3).
  split_and!; [exact H1|exact H2|].
  apply (H3 cache_ok_empty 4%nat (-999) 0 (0, Some 7%nat)).
  vm_compute. reflexivity.
Defined.

(** C5, counterexample: after the call with the window (-999, 999) has
    stored (1, 8) for [window_board], the call with the same board, marks
    and flag but the window (-999, 0) does not return (1, 8): it runs the
    body and returns (0, 7). *)
Lemma cache_not_keyed_by_four :
  (minimax_cached 4 window_board "X" "O" true (-999) 999 ∅).1
    = Ok (1, Some 8%nat) ∧
  window_cache !! (window_board, "X", "O", true, -999, 999)
    = Some (1, Some 8%nat) ∧
  (minimax_cached 4 window_board "X" "O" true (-999) 0 window_cache).1
    = Ok (0, Some 7%nat).
Proof. vm_compute. split; [|split]; reflexivity. Qed.

(** C6. On a board of nine cells with no full line and at least one empty
    cell, [ai_move] returns a position that is in range and empty on that
    board; whenever [ai_move] returns [None] the board is already terminal
    (some line is full or no cell is empty). *)
Theorem ai_move_valid (fuel : nat) (ai hu : string) (w : world) :
  length (board_obj w) = 9%nat → ai ≠ "" → hu ≠ "" →
  cache_ok (lru w) → (count_empty (board_obj w) < fuel)%nat →
  (none_full (board_obj w) WINNING_LINES → "" ∈ board_obj w →
     ∃ m w', ai_move fuel ai hu w = (Ok (Some m), w') ∧
             (m < 9)%nat ∧ board_obj w !! m = Some "") ∧
  (∀ w', ai_move fuel ai hu w = (Ok None, w') →
         (∃ l x, l ∈ WINNING_LINES ∧ line_full (board_obj w) l x)
         ∨ "" ∉ board_obj w).
Proof.
  intros Hlen Hai Hhu Hc Hfuel.
  assert (none_full (board_obj w) WINNING_LINES → "" ∈ board_obj w →
          ∃ m w', ai_move fuel ai hu w = (Ok (Some m), w') ∧
                  (m < 9)%nat ∧ board_obj w !! m = Some "") as Hmove.
  { intros Hno Hempty.
    pose proof (check_winner_none_full _ Hlen Hno) as Hr.
    rewrite decide_True in Hr by done.
    destruct (minimax_value fuel (board_obj w) ai hu true (-999) 999)
      as (v & bm & Hv & _ & Hbm); [|done|].
    { split_and!; [done..|]. by left. }
    rewrite Hr in Hbm. destruct Hbm as (m & -> & Hm).
    destruct (ai_move_pure _ _ _ _ _ _ Hc Hv) as (c' & _ & E & _).
    exists m, (World (board_obj w) c'). split_and!; [done| |done].
    apply lookup_lt_Some in Hm. lia. }
  split; [done|]. intros w' E.
  destruct (check_winner_spec _ Hlen) as (r & _ & [(l & x & Hf & _)|[Hno _]]).
  - left. exists l, x. by apply first_full_elem in Hf.
  - right. intros Hempty. destruct (Hmove Hno Hempty) as (m & w'' & E' & _).
    congruence.
Qed.

Lemma ai_move_valid_witness :
  (none_full empty_board WINNING_LINES → "" ∈ empty_board →
     ∃ m w', ai_move 10 "X" "O" (World empty_board ∅) = (Ok (Some m), w') ∧
             (m < 9)%nat ∧ empty_board !! m = Some "") ∧
  (∀ w', ai_move 10 "X" "O" (World empty_board ∅) = (Ok None, w') →
         (∃ l x, l ∈ WINNING_LINES ∧ line_full empty_board l x)
         ∨ "" ∉ empty_board).
Proof.
  apply (ai_move_valid 10 "X" "O" (World empty_board ∅)).
  - reflexivity.
  - discriminate.
  - discriminate.
  - apply cache_ok_empty.
  - vm_compute. lia.
Defined.



(** C8. [ai_move] leaves the caller's list as it found it: the search is
    given a snapshot, and in every search node each of the two loops, run
    over the empty cells of its local list, ends with that list restored,
    whether it ends by running out of moves or by pruning. *)
Theorem ai_move_preserves_board (fuel : nat) (ai hu : string) (w : world) :
  board_obj (ai_move fuel ai hu w).2 = board_obj w ∧
  ∀ (b : list string) (mx : bool) (v : Z) (bm : option nat) (alpha beta : Z)
    (c : cache),
    match (if mx then max_loop else min_loop)
            (minimax_cached fuel) ai hu b (available_moves b) v bm alpha beta c with
    | (Ok (_, _, b'), _) => b' = b
    | (Raise _, _) => True
    end.
Proof.
  split.
  - unfold ai_move. by destruct (minimax_cached _ _ _ _ _ _ _ _) as [[[??]|?] ?].
  - intros b mx v bm alpha beta c. destruct mx.
    + destruct (max_loop _ _ _ _ _ _ _ _ _ _) as [[[[v' bm'] b']|e] c'] eqn:E; [|done].
      by apply max_loop_board in E; [|apply available_moves_empty].
    + destruct (min_loop _ _ _ _ _ _ _ _ _ _) as [[[[v' bm'] b']|e] c'] eqn:E; [|done].
      by apply min_loop_board in E; [|apply available_moves_empty].
Qed.

(** C9. On every board of nine cells and for non-empty marks the search
    returns (it does not exhaust the recursion depth) as soon as the depth
    available exceeds the number of empty cells, which is at most nine; every
    recursive call is made on a board with strictly fewer empty cells than
    the caller's. *)
Theorem minimax_cached_terminates (fuel : nat) (b : list string)
    (ai hu : string) (mx : bool) (alpha beta : Z) (c : cache) :
  length b = 9%nat → ai ≠ "" → hu ≠ "" → (count_empty b < fuel)%nat →
  (∃ r c', minimax_cached fuel b ai hu mx alpha beta c = (Ok r, c')) ∧
  (count_empty b ≤ 9)%nat ∧
  (∀ m, m ∈ available_moves b →
        (count_empty (<[m := ai]> b) < count_empty b)%nat ∧
        (count_empty (<[m := hu]> b) < count_empty b)%nat).
Proof.
  intros Hlen Hai Hhu Hfuel. split_and!.
  - by apply minimax_cached_total.
  - rewrite <- Hlen. apply count_empty_le.
  - intros m Hm%elem_of_available_moves.
    pose proof (count_empty_insert b m ai Hm Hai).
    pose proof (count_empty_insert b m hu Hm Hhu). lia.
Qed.

Lemma minimax_cached_terminates_witness :
  (∃ r c', minimax_cached 10 empty_board "X" "O" true (-999) 999 ∅ = (Ok r, c')) ∧
  (count_empty empty_board ≤ 9)%nat ∧
  (∀ m, m ∈ available_moves empty_board →
        (count_empty (<[m := "X"]> empty_board) < count_empty empty_board)%nat ∧
        (count_empty (<[m := "O"]> empty_board) < count_empty empty_board)%nat).
Proof.
  apply (minimax_cached_terminates 10 empty_board "X" "O" true (-999) 999 ∅).
  - reflexivity.
  - discriminate.
  - discriminate.
  - vm_compute. lia.
Defined.

(** C10. On every board of nine cells over the empty cell and the two marks
    (reachable by legal play or not), for non-empty marks, any window and a
    cache whose entries are right, [minimax_cached] returns a value that is
    -1, 0 or 1; the sentinels -999 and 999 are never returned. *)
Theorem minimax_cached_value_range (fuel : nat) (b : list string)
    (ai hu : string) (mx : bool) (alpha beta : Z) (c : cache) :
  length b = 9%nat → over_marks b ai hu → ai ≠ "" → hu ≠ "" →
  cache_ok c → (count_empty b < fuel)%nat →
  ∃ v bm c', minimax_cached fuel b ai hu mx alpha beta c = (Ok (v, bm), c') ∧
             (v = -1 ∨ v = 0 ∨ v = 1).
Proof.
  intros Hlen Hb Hai Hhu Hc Hfuel.
  destruct (minimax_value fuel b ai hu mx alpha beta) as (v & bm & Hr & Hv & _);
    [by apply over_marks_node_ok|done|].
  destruct (minimax_cached_complete _ _ _ _ _ _ _ _ _ Hc Hr) as (c' & E & _).
  exists v, bm, c'. split; [done|lia].
Qed.

Lemma minimax_cached_value_range_witness :
  ∃ v bm c',
    minimax_cached 10 ["X"; "O"; ""; ""; "X"; ""; "O"; ""; ""] "X" "O" false 0 1 ∅
      = (Ok (v, bm), c') ∧ (v = -1 ∨ v = 0 ∨ v = 1).
Proof.
  apply (minimax_cached_value_range 10 ["X"; "O"; ""; ""; "X"; ""; "O"; ""; ""]
           "X" "O" false 0 1 ∅).
  - reflexivity.
  - unfold over_marks. repeat first [apply Forall_nil_2|apply Forall_cons_2]; auto.
  - discriminate.
  - discriminate.
  - apply cache_ok_empty.
  - vm_compute. lia.
Defined.

(** * Further properties of the code *)

(** X1. [available_moves] returns exactly the positions of the empty cells,
    in strictly ascending order, hence each once. *)
Theorem available_moves_exact (b : list string) :
  (∀ m, m ∈ available_moves b ↔ b !! m = Some "") ∧
  StronglySorted lt (available_moves b) ∧
  NoDup (available_moves b).
Proof.
  pose proof (available_moves_sorted b) as Hs. split_and!; [|done|].
  - apply elem_of_available_moves.
  - induction Hs as [|m l Hs IH Hall]; constructor; [|done].
    intros Hm. rewrite Forall_forall in Hall. specialize (Hall m Hm). lia.
Qed.

(** X2. On a list of at most six cells [check_winner] never reports a draw
    or a game in progress, and its result is fixed by the first two rows:
    the mark of the first row when that is full; otherwise the mark of the
    second row when that is full; otherwise it raises [IndexError]. *)
Theorem check_winner_short (b : list string) :
  (length b ≤ 6)%nat →
  (∀ x, line_full b (0, 1, 2)%nat x → check_winner b = Ok (Some x)) ∧
  (∀ x, (∀ y, ¬ line_full b (0, 1, 2)%nat y) → line_full b (3, 4, 5)%nat x →
        check_winner b = Ok (Some x)) ∧
  ((∀ y, ¬ line_full b (0, 1, 2)%nat y) → (∀ y, ¬ line_full b (3, 4, 5)%nat y) →
   check_winner b = Raise IndexError).
Proof.
  intros Hlen. unfold check_winner, WINNING_LINES. cbn [first_line].
  split_and!.
  - intros x Hx. by rewrite (line_winner_full _ _ _ Hx).
  - intros x Hno Hx.
    assert (length b = 6%nat) as Hlen6.
    { destruct Hx as (_ & _ & H5%lookup_lt_Some & _). simpl in H5. lia. }
    pose proof (line_winner_spec b (0, 1, 2)%nat) as H1.
    destruct (line_winner b (0, 1, 2)%nat) as [[y|]|e]; cbn [res_bind].
    + destruct (Hno y). apply H1. unfold line_in_range. simpl. lia.
    + by rewrite (line_winner_full _ _ _ Hx).
    + destruct H1. unfold line_in_range. simpl. lia.
  - intros Hno1 Hno2.
    destruct (line_winner_not_full b _ Hno1) as [-> | ->]; cbn [res_bind]; [|done].
    destruct (line_winner_not_full b _ Hno2) as [-> | ->]; cbn [res_bind]; [|done].
    unfold line_winner at 1. unfold getitem at 1.
    by rewrite (lookup_ge_None_2 b 6) by lia.
Qed.

Lemma check_winner_short_witness :
  check_winner ["X"; "X"; "X"] = Ok (Some "X") ∧
  check_winner ["X"; "O"; "X"; "O"; "O"; "O"] = Ok (Some "O") ∧
  check_winner ["X"; "O"; "X"; "O"] = Raise IndexError.
Proof.
  split_and!.
  - destruct (check_winner_short ["X"; "X"; "X"]) as (H1 & _ & _); [simpl; lia|].
    apply H1. by split_and!.
  - destruct (check_winner_short ["X"; "O"; "X"; "O"; "O"; "O"]) as (_ & H2 & _);
      [simpl; lia|].
    apply H2; [|by split_and!].
    intros y (H0 & H1 & _). simpl in *. congruence.
  - destruct (check_winner_short ["X"; "O"; "X"; "O"]) as (_ & _ & H3);
      [simpl; lia|].
    apply H3.
    + intros y (H0 & H1 & _). simpl in *. congruence.
    + intros y (_ & H4 & _). simpl in *. congruence.
Defined.

(** X3. On a list of nine cells or more [check_winner] does not raise.  The
    lines read the first nine cells only, but the test for a draw reads
    every cell: with no full line the result is [None] as long as any cell,
    also one after the ninth, is empty. *)
Theorem check_winner_long (b : list string) :
  (9 ≤ length b)%nat →
  ∃ r, check_winner b = Ok r ∧
       ((∃ l x, first_full (take 9 b) WINNING_LINES l x ∧ r = Some x)
        ∨ (none_full (take 9 b) WINNING_LINES ∧
           r = if decide ("" ∈ b) then None else Some "Draw")).
Proof.
  intros Hlen.
  assert (∀ l x, l ∈ WINNING_LINES → line_full (take 9 b) l x ↔ line_full b l x)
    as Htake.
  { intros l x Hl. pose proof WINNING_LINES_in_range as Hr.
    rewrite Forall_forall in Hr. destruct (Hr l Hl) as (? & ? & ?).
    unfold line_full. by rewrite !lookup_take_lt by lia. }
  unfold check_winner.
  pose proof (first_line_spec b WINNING_LINES
                (WINNING_LINES_in_range_ge _ Hlen)) as Hf.
  destruct (first_line b WINNING_LINES) as [[x|]|e]; simpl; [| |done].
  - destruct Hf as (k1 & k & k2 & Hk & Hfull & Hnone).
    exists (Some x). split; [done|]. left. exists k, x. split; [|done].
    exists k1, k2. split_and!; [done| |].
    + apply Htake; [|done]. rewrite Hk.
      apply elem_of_app. right. apply elem_of_cons. by left.
    + intros l y Hl Hy. apply (Hnone l y Hl). apply Htake; [|done].
      rewrite Hk. apply elem_of_app. by left.
  - assert (none_full (take 9 b) WINNING_LINES) as Hno.
    { intros l y Hl Hy. apply (Hf l y Hl). by apply Htake. }
    destruct (contains b "") eqn:Hc; simpl; eexists; (split; [done|right]);
      (split; [done|]).
    + apply contains_spec in Hc. by rewrite decide_True.
    + rewrite decide_False; [done|]. intros Hc'%contains_spec. congruence.
Qed.

Lemma check_winner_long_witness :
  ∃ r, check_winner ["X"; "O"; "X"; "X"; "O"; "O"; "O"; "X"; "X"; ""] = Ok r ∧
       ((∃ l x, first_full (take 9 ["X"; "O"; "X"; "X"; "O"; "O"; "O"; "X"; "X"; ""])
                           WINNING_LINES l x ∧ r = Some x)
        ∨ (none_full (take 9 ["X"; "O"; "X"; "X"; "O"; "O"; "O"; "X"; "X"; ""])
                     WINNING_LINES ∧
           r = if decide ("" ∈ ["X"; "O"; "X"; "X"; "O"; "O"; "O"; "X"; "X"; ""])
               then None else Some "Draw")).
Proof.
  apply (check_winner_long ["X"; "O"; "X"; "X"; "O"; "O"; "O"; "X"; "X"; ""]).
  simpl. lia.
Defined.

(** X4. A board of nine cells with a full line stays won under any further
    placement of a non-empty mark on an empty cell: [check_winner] keeps
    returning a mark of a full line (not necessarily the same mark), never
    [None] and never a draw by default. *)
Theorem won_stays_won (b : list string) (m : nat) (x r : string)
    (l : nat * nat * nat) :
  length b = 9%nat → l ∈ WINNING_LINES → line_full b l r →
  b !! m = Some "" →
  ∃ r' l', check_winner (<[m := x]> b) = Ok (Some r') ∧
           first_full (<[m := x]> b) WINNING_LINES l' r'.
Proof.
  intros Hlen Hl Hfull Hm.
  destruct (check_winner_spec (<[m := x]> b)) as (r0 & -> & Hcases).
  { by rewrite length_insert. }
  destruct Hcases as [(l' & r' & Hf & ->)|[Hno _]]; [by exists r', l'|].
  destruct (Hno l r Hl). by apply line_full_insert_other.
Qed.

Lemma won_stays_won_witness :
  ∃ r' l',
    check_winner (<[0%nat := "O"]> [""; "O"; "O"; "X"; "X"; "X"; ""; ""; ""])
      = Ok (Some r') ∧
    first_full (<[0%nat := "O"]> [""; "O"; "O"; "X"; "X"; "X"; ""; ""; ""])
               WINNING_LINES l' r'.
Proof.
  apply (won_stays_won [""; "O"; "O"; "X"; "X"; "X"; ""; ""; ""] 0 "O" "X"
           (3, 4, 5)%nat).
  - reflexivity.
  - unfold WINNING_LINES. apply elem_of_cons. right. apply elem_of_cons. by left.
  - by split_and!.
  - reflexivity.
Defined.

(** X5. The decorator does not change what the function computes.  With a
    cache whose entries are values of the undecorated function (the empty
    cache is one, and every call leaves one again), a decorated call returns
    the value of the undecorated call when that returns, at the same depth;
    and whatever a decorated call returns, at any depth, is that value. *)
Theorem lru_cache_transparent (fuel fuel' : nat) (b : list string)
    (ai hu : string) (mx : bool) (alpha beta : Z) (c : cache)
    (r : Z * option nat) :
  cache_ok c →
  minimax fuel b ai hu mx alpha beta = Ok r →
  (∃ c', minimax_cached fuel b ai hu mx alpha beta c = (Ok r, c') ∧ cache_ok c') ∧
  (∀ r' c', minimax_cached fuel' b ai hu mx alpha beta c = (Ok r', c') →
            r' = r ∧ cache_ok c').
Proof.
  intros Hc Hr. split; [by apply minimax_cached_complete|].
  intros r' c' E.
  destruct (minimax_cached_sound _ _ _ _ _ _ _ _ _ _ Hc E) as [Hc' Hsound].
  destruct (Hsound r' eq_refl) as [fuel'' Hr'].
  split; [|done]. by eapply minimax_det.
Qed.

Lemma lru_cache_transparent_witness :
  (∃ c', minimax_cached 4 window_board "X" "O" true (-999) 999 ∅
         = (Ok (1, Some 8%nat), c') ∧ cache_ok c') ∧
  (∀ r' c', minimax_cached 9 window_board "X" "O" true (-999) 999 ∅
            = (Ok r', c') → r' = (1, Some 8%nat) ∧ cache_ok c').
Proof.
  apply (lru_cache_transparent 4 9 window_board "X" "O" true (-999) 999 ∅).
  - exact cache_ok_empty.
  - vm_compute. reflexivity.
Defined.

(** X6. The cache never evicts and never alters an entry ([maxsize=None]):
    the cache after a call contains the cache before it.  Hence an answer
    once given is given again after any other call, whatever that call
    returns or raises, at any depth and without a change to the cache. *)
Theorem cache_keeps_answers (f1 f2 f3 : nat) (b b2 : list string)
    (ai hu ai2 hu2 : string) (mx mx2 : bool) (alpha beta alpha2 beta2 : Z)
    (c0 c1 c2 : cache) (r : Z * option nat) (x : res (Z * option nat)) :
  minimax_cached f1 b ai hu mx alpha beta c0 = (Ok r, c1) →
  minimax_cached f2 b2 ai2 hu2 mx2 alpha2 beta2 c1 = (x, c2) →
  c0 ⊆ c1 ∧ c1 ⊆ c2 ∧
  minimax_cached f3 b ai hu mx alpha beta c2 = (Ok r, c2).
Proof.
  intros E1 E2.
  pose proof (minimax_cached_grows _ _ _ _ _ _ _ _ _ _ E1) as H01.
  pose proof (minimax_cached_grows _ _ _ _ _ _ _ _ _ _ E2) as H12.
  split_and!; [done..|].
  apply minimax_cached_hit. apply (lookup_weaken c1); [|done].
  by eapply minimax_cached_stored.
Qed.

Lemma cache_keeps_answers_witness :
  ∅ ⊆ window_cache ∧
  window_cache ⊆ (minimax_cached 4 window_board "X" "O" true (-999) 0 window_cache).2 ∧
  minimax_cached 0 window_board "X" "O" true (-999) 999
    (minimax_cached 4 window_board "X" "O" true (-999) 0 window_cache).2
  = (Ok (1, Some 8%nat),
     (minimax_cached 4 window_board "X" "O" true (-999) 0 window_cache).2).
Proof.
  apply (cache_keeps_answers 4 4 0 window_board window_board "X" "O" "X" "O"
           true true (-999) 999 (-999) 0 ∅ window_cache _ (1, Some 8%nat)
           (minimax_cached 4 window_board "X" "O" true (-999) 0 window_cache).1).
  - exact window_call.
  - apply surjective_pairing.
Defined.

(** X7. Pruning and caching do not change the value.  On a board of nine
    cells over the two marks, for any window [alpha < beta] and a cache
    with right entries, the value [v] returned bounds the plain minimax
    value [t] of the position as the window says (an upper bound at or
    below [alpha], a lower bound at or above [beta], exact in between); with
    a window that contains -1 and 1, as the one [ai_move] passes, [v = t]. *)
Theorem pruning_keeps_value (fuel : nat) (b : list string) (ai hu : string)
    (mx : bool) (alpha beta : Z) (c : cache) :
  length b = 9%nat → over_marks b ai hu → ai ≠ "" → hu ≠ "" →
  cache_ok c → (count_empty b < fuel)%nat → alpha < beta →
  ∃ v bm c',
    minimax_cached fuel b ai hu mx alpha beta c = (Ok (v, bm), c') ∧
    window_bounds alpha beta v (position_value b ai hu mx) ∧
    (alpha < -1 → 1 < beta → v = position_value b ai hu mx).
Proof.
  intros Hlen Hb Hai Hhu Hc Hfuel Hw.
  destruct (alpha_beta_bounds (count_empty b) b ai hu mx alpha beta)
    as (v & bm & Hv & Hrange & Hbounds & _);
    [by apply over_marks_node_ok|done..|].
  apply (minimax_mono _ fuel) in Hv; [|lia].
  destruct (minimax_cached_complete _ _ _ _ _ _ _ _ _ Hc Hv) as (c' & E & _).
  exists v, bm, c'. split_and!; [done..|].
  intros Ha Hb'. destruct Hbounds as (_ & _ & Hexact).
  symmetry. apply Hexact. lia.
Qed.

Lemma pruning_keeps_value_witness :
  ∃ v bm c',
    minimax_cached 10 ["X"; "O"; ""; ""; "X"; ""; "O"; ""; ""] "X" "O" false
                   0 1 ∅ = (Ok (v, bm), c') ∧
    window_bounds 0 1 v
      (position_value ["X"; "O"; ""; ""; "X"; ""; "O"; ""; ""] "X" "O" false) ∧
    (0 < -1 → 1 < 1 →
     v = position_value ["X"; "O"; ""; ""; "X"; ""; "O"; ""; ""] "X" "O" false).
Proof.
  apply (pruning_keeps_value 10 ["X"; "O"; ""; ""; "X"; ""; "O"; ""; ""]
           "X" "O" false 0 1 ∅).
  - reflexivity.
  - repeat first [apply Forall_nil_2|apply Forall_cons_2]; auto.
  - discriminate.
  - discriminate.
  - exact cache_ok_empty.
  - vm_compute. lia.
  - lia.
Defined.

(** X8. The move of [ai_move] is a best move by plain minimax.  On a board
    of nine cells over the two marks with the game in progress, [ai_move]
    returns an empty position [m] such that the position after the AI's
    mark is placed at [m], the opponent to move, has the value of the board,
    and no other empty position gives a position of larger value. *)
Theorem ai_move_optimal (fuel : nat) (b : list string) (ai hu : string)
    (c : cache) :
  length b = 9%nat → over_marks b ai hu → ai ≠ "" → hu ≠ "" →
  check_winner b = Ok None → cache_ok c → (count_empty b < fuel)%nat →
  ∃ m c',
    ai_move fuel ai hu (World b c) = (Ok (Some m), World b c') ∧
    b !! m = Some "" ∧
    position_value (<[m := ai]> b) ai hu false = position_value b ai hu true ∧
    ∀ m', b !! m' = Some "" →
          position_value (<[m' := ai]> b) ai hu false
          <= position_value (<[m := ai]> b) ai hu false.
Proof.
  intros Hlen Hb Hai Hhu Hr Hc Hfuel.
  destruct (ai_move_keeps_value fuel b ai hu c)
    as (m & c' & E & _ & Hm & Hval); [by apply over_marks_node_ok|done..|].
  exists m, c'. split_and!; [done..|].
  intros m' Hm'. rewrite Hval. unfold position_value.
  rewrite (plain_minimax_in_progress _ _ _ _ _ Hr).
  rewrite (count_empty_insert b m' ai Hm' Hai).
  apply (foldr_max_ge
           (λ m, plain_minimax (count_empty b) (<[m := ai]> b) ai hu false)).
  by apply elem_of_available_moves.
Qed.

Lemma ai_move_optimal_witness :
  ∃ m c',
    ai_move 10 "X" "O" (World ["X"; "O"; ""; ""; "X"; ""; "O"; ""; ""] ∅)
      = (Ok (Some m), World ["X"; "O"; ""; ""; "X"; ""; "O"; ""; ""] c') ∧
    ["X"; "O"; ""; ""; "X"; ""; "O"; ""; ""] !! m = Some "" ∧
    position_value (<[m := "X"]> ["X"; "O"; ""; ""; "X"; ""; "O"; ""; ""])
                   "X" "O" false
    = position_value ["X"; "O"; ""; ""; "X"; ""; "O"; ""; ""] "X" "O" true ∧
    ∀ m', ["X"; "O"; ""; ""; "X"; ""; "O"; ""; ""] !! m' = Some "" →
          position_value (<[m' := "X"]> ["X"; "O"; ""; ""; "X"; ""; "O"; ""; ""])
                         "X" "O" false
          <= position_value (<[m := "X"]> ["X"; "O"; ""; ""; "X"; ""; "O"; ""; ""])
                            "X" "O" false.
Proof.
  apply (ai_move_optimal 10 ["X"; "O"; ""; ""; "X"; ""; "O"; ""; ""] "X" "O" ∅).
  - reflexivity.
  - repeat first [apply Forall_nil_2|apply Forall_cons_2]; auto.
  - discriminate.
  - discriminate.
  - vm_compute. reflexivity.
  - exact cache_ok_empty.
  - vm_compute. lia.
Defined.


(** X10. [human_move] returns only a position that is empty on the board,
    read as the number one above it, after lines that were all refused (not
    a number, or a number that is not one above an empty position; zero and
    negative numbers are refused, they do not index from the end).  It
    stops the program when a quit word comes first, and fails with
    [EOFError] when the input ends first; it ends in no other way. *)
Theorem human_move_accepts (b : list string) (stdin : list line)
    (o : list out) (r : ended nat) (rest : list line) :
  human_move b stdin = (o, r, rest) →
  match r with
  | Returned m =>
      b !! m = Some "" ∧
      ∃ skipped, stdin = skipped ++ Number (Z.of_nat m + 1) :: rest
                 ∧ Forall (rejected (available_moves b)) skipped
  | Halted SystemExit =>
      ∃ skipped, stdin = skipped ++ Quit :: rest
                 ∧ Forall (rejected (available_moves b)) skipped
  | Halted EOFError => rest = [] ∧ Forall (rejected (available_moves b)) stdin
  | Halted _ => False
  end.
Proof.
  intros E. apply read_move_spec in E.
  destruct r as [m|[| | |]]; try done.
  destruct E as [Hm Hrest]. split; [|done]. by apply elem_of_available_moves.
Qed.

Lemma human_move_accepts_witness :
  ["X"; ""; ""; ""; "O"; ""; ""; ""; ""] !! 2%nat = Some "" ∧
  ∃ skipped,
    [NotNumber; Number 5; Number 0; Number 3; Quit]
    = skipped ++ Number (Z.of_nat 2 + 1) :: [Quit]
    ∧ Forall (rejected (available_moves ["X"; ""; ""; ""; "O"; ""; ""; ""; ""]))
             skipped.
Proof.
  apply (human_move_accepts ["X"; ""; ""; ""; "O"; ""; ""; ""; ""]
           [NotNumber; Number 5; Number 0; Number 3; Quit]
           [Prompt move_prompt; Print "Please enter a number 1-9.";
            Prompt move_prompt; Print "Invalid move or already taken. Try again.";
            Prompt move_prompt; Print "Invalid move or already taken. Try again.";
            Prompt move_prompt]
           (Returned 2%nat) [Quit]).
  vm_compute. reflexivity.
Defined.

(** X11. [display] reads the first nine cells and no other: on a list of
    nine cells or more it prints seven lines and returns, and what it
    prints is what it prints for the first nine cells alone. *)
Theorem display_first_nine (b : list string) :
  (9 ≤ length b)%nat →
  ∃ o, display b = (o, Ok tt) ∧ length o = 7%nat ∧ display (take 9 b) = (o, Ok tt).
Proof.
  intros Hlen. destruct (display_ok b Hlen) as (o & E & Ho).
  exists o. split_and!; [done..|]. rewrite <- E.
  unfold display, display_row, getitem.
  rewrite fmap_take, !lookup_take_lt by lia. done.
Qed.

Lemma display_first_nine_witness :
  ∃ o, display ["X"; "O"; ""; ""; "X"; ""; "O"; ""; ""; "Z"] = (o, Ok tt) ∧
       length o = 7%nat ∧
       display (take 9 ["X"; "O"; ""; ""; "X"; ""; "O"; ""; ""; "Z"]) = (o, Ok tt).
Proof.
  apply (display_first_nine ["X"; "O"; ""; ""; "X"; ""; "O"; ""; ""; "Z"]).
  simpl. lia.
Defined.

(** X12. On a list of fewer than nine cells [display] raises [IndexError]
    after it has printed the blank line and the rows it could complete, each
    with its separator: one line, three or five. *)
Theorem display_short (b : list string) :
  (length b < 9)%nat →
  ∃ o, display b = (o, Raise IndexError) ∧
       length o = (1 + 2 * (length b / 3))%nat.
Proof.
  intros Hlen.
  do 9 (destruct b as [|? b]; [eexists; split; reflexivity|]).
  simpl in Hlen. lia.
Qed.

Lemma display_short_witness :
  ∃ o, display ["X"; "O"; ""; "X"] = (o, Raise IndexError) ∧
       length o = (1 + 2 * (length ["X"; "O"; ""; "X"] / 3))%nat.
Proof. apply (display_short ["X"; "O"; ""; "X"]). simpl. lia. Defined.

(** X13. [display] is faithful on the boards of the game: two lists of nine
    cells, each cell empty or one character other than a space, that are
    printed alike are equal. *)
Theorem display_faithful (b b' : list string) :
  length b = 9%nat → length b' = 9%nat →
  Forall plain_cell b → Forall plain_cell b' →
  display b = display b' → b = b'.
Proof.
  intros Hlen Hlen' Hb Hb' E.
  apply shown_plain_cells_inj; [done..|].
  revert E. unfold display.
  set (f := λ c : string, if negb (String.eqb c "") then c else " ").
  assert (∀ l, Forall plain_cell l → Forall (λ s, ∃ a, s = String a "") (f <$> l))
    as Hshown.
  { intros l Hl. apply Forall_fmap. eapply Forall_impl; [exact Hl|].
    intros c Hc. by apply shown_plain_cell. }
  assert (length (f <$> b) = 9%nat) as Hl by (by rewrite length_fmap).
  assert (length (f <$> b') = 9%nat) as Hl' by (by rewrite length_fmap).
  destruct (display_row_ok (f <$> b) 0 1 2) as (? & ? & ? & _ & _ & _ & E1); [lia..|].
  destruct (display_row_ok (f <$> b) 3 4 5) as (? & ? & ? & _ & _ & _ & E2); [lia..|].
  destruct (display_row_ok (f <$> b) 6 7 8) as (? & ? & ? & _ & _ & _ & E3); [lia..|].
  destruct (display_row_ok (f <$> b') 0 1 2) as (? & ? & ? & _ & _ & _ & E1'); [lia..|].
  destruct (display_row_ok (f <$> b') 3 4 5) as (? & ? & ? & _ & _ & _ & E2'); [lia..|].
  destruct (display_row_ok (f <$> b') 6 7 8) as (? & ? & ? & _ & _ & _ & E3'); [lia..|].
  cbv zeta. rewrite E1, E2, E3, E1', E2', E3'. intros [= R1 R2 R3].
  apply display_rows_inj; [done|done|by apply Hshown|by apply Hshown|..].
  - rewrite E1, E1'. exact (f_equal (λ s, Ok (" " +:+ s)) R1).
  - rewrite E2, E2'. exact (f_equal (λ s, Ok (" " +:+ s)) R2).
  - rewrite E3, E3'. exact (f_equal (λ s, Ok (" " +:+ s)) R3).
Qed.

Lemma display_faithful_witness :
  ["X"; "O"; ""; ""; "X"; ""; "O"; ""; ""]
  = <[2%nat := ""]> ["X"; "O"; "O"; ""; "X"; ""; "O"; ""; ""].
Proof.
  apply (display_faithful ["X"; "O"; ""; ""; "X"; ""; "O"; ""; ""]
           (<[2%nat := ""]> ["X"; "O"; "O"; ""; "X"; ""; "O"; ""; ""])).
  - reflexivity.
  - reflexivity.
  - repeat first [apply Forall_nil_2|apply Forall_cons_2];
      first [by left|right; split; [reflexivity|discriminate]].
  - simpl. repeat first [apply Forall_nil_2|apply Forall_cons_2];
      first [by left|right; split; [reflexivity|discriminate]].
  - vm_compute. reflexivity.
Defined.

(** X14. On a list with no empty cell for which [check_winner] returns a
    result, the search returns no move and a value that depends on the
    result alone, whatever the window and the cache: 1 for the AI's mark,
    else -1 for the opponent's, else 0 for ["Draw"]; for any other result (a
    full line of a third mark) the loop runs over no move and the sentinel
    comes back, -999 when maximizing and 999 when minimizing. *)
Theorem full_board_value (fuel : nat) (b : list string) (ai hu : string)
    (mx : bool) (alpha beta : Z) (c : cache) (x : string) :
  check_winner b = Ok (Some x) → "" ∉ b → cache_ok c → (0 < fuel)%nat →
  ∃ c', minimax_cached fuel b ai hu mx alpha beta c
        = (Ok (if String.eqb x ai then 1
               else if String.eqb x hu then -1
               else if String.eqb x "Draw" then 0
               else if mx then -999 else 999, None), c').
Proof.
  intros Hr Hfull Hc Hfuel.
  assert (minimax 1 b ai hu mx alpha beta
          = Ok (if String.eqb x ai then 1
                else if String.eqb x hu then -1
                else if String.eqb x "Draw" then 0
                else if mx then -999 else 999, None)) as Hv.
  { rewrite minimax_S. unfold minimax_body. rewrite Hr. cbn [result_is].
    destruct (String.eqb x ai); [done|].
    destruct (String.eqb x hu); [done|].
    destruct (String.eqb x "Draw"); [done|].
    rewrite (available_moves_full b Hfull). by destruct mx. }
  apply (minimax_mono _ fuel) in Hv; [|lia].
  destruct (minimax_cached_complete _ _ _ _ _ _ _ _ _ Hc Hv) as (c' & E & _).
  by exists c'.
Qed.

Lemma full_board_value_witness :
  ∃ c', minimax_cached 1 ["Z"; "Z"; "Z"; "X"; "O"; "X"; "O"; "X"; "O"] "X" "O"
                       true (-999) 999 ∅
        = (Ok (if String.eqb "Z" "X" then 1
               else if String.eqb "Z" "O" then -1
               else if String.eqb "Z" "Draw" then 0
               else if true then -999 else 999, None), c').
Proof.
  apply (full_board_value 1 ["Z"; "Z"; "Z"; "X"; "O"; "X"; "O"; "X"; "O"]
           "X" "O" true (-999) 999 ∅ "Z").
  - vm_compute. reflexivity.
  - intros H. repeat (apply elem_of_cons in H as [H|H]; [discriminate|]).
    by apply elem_of_nil in H.
  - exact cache_ok_empty.
  - lia.
Defined.

(** X15. Neither the evaluator nor the search depends on which strings the
    marks are.  For two pairs of marks (in each pair two distinct strings,
    neither empty nor ["Draw"]) and a board of nine cells over the first
    pair, renaming the marks on the board renames the result of
    [check_winner], and [ai_move] called with the second pair on the renamed
    board returns the move it returns with the first pair on the board
    itself, whatever the two caches hold. *)
Theorem marks_do_not_matter (fuel : nat) (a h a' h' : string)
    (b : list string) (c c' : cache) :
  marks a h → marks a' h' → length b = 9%nat → over_marks b a h →
  cache_ok c → cache_ok c' → (count_empty b < fuel)%nat →
  check_winner (rename a h a' h' <$> b)
  = res_map (option_map (rename a h a' h')) (check_winner b) ∧
  ∃ mv, (ai_move fuel a h (World b c)).1 = Ok mv ∧
        (ai_move fuel a' h' (World (rename a h a' h' <$> b) c')).1 = Ok mv.
Proof.
  intros Hm Hm' Hlen Hb Hc Hc' Hfuel.
  split; [by apply check_winner_rename|].
  pose proof Hm as (Ha & Hh & _).
  destruct (minimax_value fuel b a h true (-999) 999) as (v & mv & Hv & _);
    [by apply over_marks_node_ok|done|].
  pose proof (minimax_rename a h a' h' Hm Hm' fuel b true (-999) 999 Hb) as Hv'.
  rewrite Hv in Hv'.
  destruct (ai_move_pure fuel a h (World b c) v mv Hc Hv) as (c1 & _ & -> & _).
  destruct (ai_move_pure fuel a' h' (World (rename a h a' h' <$> b) c') v mv
              Hc' Hv') as (c2 & _ & -> & _).
  by exists mv.
Qed.

Lemma marks_do_not_matter_witness :
  check_winner (rename "X" "O" "O" "X" <$> ["X"; "O"; ""; ""; "X"; ""; "O"; ""; ""])
  = res_map (option_map (rename "X" "O" "O" "X"))
            (check_winner ["X"; "O"; ""; ""; "X"; ""; "O"; ""; ""]) ∧
  ∃ mv,
    (ai_move 10 "X" "O" (World ["X"; "O"; ""; ""; "X"; ""; "O"; ""; ""] ∅)).1
      = Ok mv ∧
    (ai_move 10 "O" "X"
       (World (rename "X" "O" "O" "X" <$> ["X"; "O"; ""; ""; "X"; ""; "O"; ""; ""])
              ∅)).1 = Ok mv.
Proof.
  apply (marks_do_not_matter 10 "X" "O" "O" "X"
           ["X"; "O"; ""; ""; "X"; ""; "O"; ""; ""] ∅ ∅).
  - repeat split; discriminate.
  - repeat split; discriminate.
  - reflexivity.
  - repeat first [apply Forall_nil_2|apply Forall_cons_2]; auto.
  - exact cache_ok_empty.
  - exact cache_ok_empty.
  - vm_compute. lia.
Defined.
